(** * R0BIN0/utils: array helpers and the localStorage wrapper

    A shallow embedding of [src/utils/array/array.ts] and
    [src/utils/localStorage/localStorage.ts], together with the part of
    the JavaScript runtime the two files lean on: JSON values, their
    serialisation ([JSON.stringify]) and parsing ([JSON.parse]), truthiness,
    strict equality, property access and [Array.prototype.sort].

    Modelling conventions.
    - A JavaScript value is [JsVal = option Json]: [None] is [undefined],
      [Some j] a value of the JSON data model (spec section 3: entries hold
      JSON-serialisable values).  Numbers are integers ([Z]), standing for
      the integers the runtime represents exactly; texts with a fraction or
      an exponent are outside the model and the parser rejects them.  A
      string is a sequence of 8-bit code units.
    - An object is an association list in property-creation order.  The
      reordering of integer-like keys done by the runtime is not modelled.
      [get_prop] reads the properties a value has of its own; the read
      along the prototype chain is [engine.read].
    - [Array.prototype.sort] is the engine's.  The module [engine] has the
      sort helpers on any engine, with its sort and the names its values
      inherit as arguments; the module [array] has them on one engine,
      whose sort is an insertion sort and whose values inherit nothing.
    - Compound values carry no identity: [===] on two arrays or two objects
      is [false], which is what holds between a freshly parsed value and
      any argument of a call.
    - Code that can raise ([JSON.parse] on malformed text, a property read
      on [null]) lives in the [Exc] monad.
    - The storage medium is a [gmap string string]; the presence of the
      global [window] object is a flag of the world. *)

From stdpp Require Import base option list gmap strings sorting relations.
From Stdlib Require Import ZArith Ascii Lia.

Open Scope Z_scope.

(** ** JSON values *)

Unset Elimination Schemes.
Inductive Json : Type :=
| JNull
| JBool (b : bool)
| JNum (n : Z)
| JStr (s : string)
| JArr (l : list Json)
| JObj (o : list (string * Json)).
Set Elimination Schemes.

(** [undefined] is [None]. *)
Definition JsVal : Type := option Json.
Definition undefined : JsVal := None.

Section JsonInd.
Variable P : Json → Prop.
Hypothesis Hnull : P JNull.
Hypothesis Hbool : ∀ b, P (JBool b).
Hypothesis Hnum : ∀ n, P (JNum n).
Hypothesis Hstr : ∀ s, P (JStr s).
Hypothesis Harr : ∀ l, Forall P l → P (JArr l).
Hypothesis Hobj : ∀ o, Forall (λ kv, P kv.2) o → P (JObj o).

Fixpoint Json_induction (v : Json) : P v :=
  match v with
  | JNull => Hnull
  | JBool b => Hbool b
  | JNum n => Hnum n
  | JStr s => Hstr s
  | JArr l =>
      Harr l ((fix go (l : list Json) : Forall P l :=
                 match l with
                 | [] => Forall_nil_2 P
                 | x :: l' => Forall_cons_2 P x l' (Json_induction x) (go l')
                 end) l)
  | JObj o =>
      Hobj o ((fix go (o : list (string * Json)) : Forall (λ kv, P kv.2) o :=
                 match o with
                 | [] => Forall_nil_2 _
                 | kv :: o' => Forall_cons_2 _ kv o' (Json_induction kv.2) (go o')
                 end) o)
  end.
End JsonInd.

(** ** Characters *)

Module Chr.
Definition dquote : ascii := ascii_of_N 34.
Definition backslash : ascii := ascii_of_N 92.

Definition code (c : ascii) : N := N_of_ascii c.

Definition is_ws (c : ascii) : bool :=
  let n := code c in
  ((n =? 32) || (n =? 9) || (n =? 10) || (n =? 13))%N.

Definition is_digit (c : ascii) : bool :=
  let n := code c in ((48 <=? n) && (n <=? 57))%N.

Definition digit_char (d : Z) : ascii := ascii_of_N (48 + Z.to_N d).
Definition digit_val (c : ascii) : Z := Z.of_N (code c) - 48.

Definition hex_char (n : N) : ascii :=
  if (n <? 10)%N then ascii_of_N (48 + n) else ascii_of_N (87 + n).

Definition hex_val (c : ascii) : option N :=
  let n := code c in
  if ((48 <=? n) && (n <=? 57))%N then Some (n - 48)%N
  else if ((97 <=? n) && (n <=? 102))%N then Some (n - 87)%N
  else if ((65 <=? n) && (n <=? 70))%N then Some (n - 55)%N
  else None.
End Chr.

Definition chars (s : string) : list ascii := String.list_ascii_of_string s.

(** ** Objects as ordered property lists *)

Fixpoint obj_get (k : string) (o : list (string * Json)) : JsVal :=
  match o with
  | [] => None
  | (k', v) :: o' => if decide (k = k') then Some v else obj_get k o'
  end.

(** Defining a property: an existing key keeps its place and takes the new
    value, a new key goes last. *)
Fixpoint obj_set (k : string) (v : Json) (o : list (string * Json))
  : list (string * Json) :=
  match o with
  | [] => [(k, v)]
  | (k', v') :: o' =>
      if decide (k = k') then (k, v) :: o' else (k', v') :: obj_set k v o'
  end.

Definition obj_assign (o src : list (string * Json)) : list (string * Json) :=
  fold_left (λ acc kv, obj_set kv.1 kv.2 acc) src o.

(** ** JSON.stringify and JSON.parse *)

Module JSON.
Import Chr.

(** *** Numbers: canonical decimal notation *)

Fixpoint digits_fuel (fuel : nat) (n : Z) : list ascii :=
  match fuel with
  | O => []
  | S f =>
      if n <? 10 then [digit_char n]
      else digits_fuel f (n / 10) ++ [digit_char (n mod 10)]
  end.

Definition digits (n : Z) : list ascii :=
  digits_fuel (S (Z.to_nat (Z.log2 n))) n.

Definition number_text (n : Z) : list ascii :=
  if n <? 0 then "-"%char :: digits (- n) else digits n.

Definition digits_value (ds : list ascii) : Z :=
  fold_left (λ acc c, 10 * acc + digit_val c) ds 0.

Fixpoint span_digits (s : list ascii) : list ascii * list ascii :=
  match s with
  | c :: r =>
      if is_digit c then let '(ds, r') := span_digits r in (c :: ds, r')
      else ([], s)
  | [] => ([], [])
  end.

(** The digits of a number token.  A leading zero followed by more
    digits is a syntax error; a fraction or an exponent is outside the
    integer model. *)
Definition parse_magnitude (s : list ascii) : option (Z * list ascii) :=
  let '(ds, r) := span_digits s in
  match ds with
  | [] => None
  | d :: ds' =>
      if Ascii.eqb d "0" && negb (bool_decide (ds' = [])) then None
      else
        match r with
        | c :: _ =>
            if Ascii.eqb c "." || Ascii.eqb c "e" || Ascii.eqb c "E" then None
            else Some (digits_value ds, r)
        | [] => Some (digits_value ds, r)
        end
  end.

Definition parse_number (s : list ascii) : option (Z * list ascii) :=
  match s with
  | c :: r =>
      if Ascii.eqb c "-" then '(n, r') ← parse_magnitude r; Some (- n, r')
      else parse_magnitude s
  | [] => None
  end.

(** *** Strings: quoting and escapes *)

Definition escape_char (c : ascii) : list ascii :=
  let n := code c in
  if (n =? 34)%N then [backslash; dquote]
  else if (n =? 92)%N then [backslash; backslash]
  else if (n =? 8)%N then [backslash; "b"%char]
  else if (n =? 12)%N then [backslash; "f"%char]
  else if (n =? 10)%N then [backslash; "n"%char]
  else if (n =? 13)%N then [backslash; "r"%char]
  else if (n =? 9)%N then [backslash; "t"%char]
  else if (n <? 32)%N then
    [backslash; "u"%char; "0"%char; "0"%char;
     hex_char (n / 16); hex_char (n mod 16)]
  else [c].

Definition quote_chars (s : list ascii) : list ascii :=
  dquote :: List.concat (map escape_char s) ++ [dquote].

Definition unescape_simple (c : ascii) : option ascii :=
  let n := code c in
  if (n =? 34)%N then Some dquote
  else if (n =? 92)%N then Some backslash
  else if (n =? 47)%N then Some "/"%char
  else if (n =? 98)%N then Some (ascii_of_N 8)
  else if (n =? 102)%N then Some (ascii_of_N 12)
  else if (n =? 110)%N then Some (ascii_of_N 10)
  else if (n =? 114)%N then Some (ascii_of_N 13)
  else if (n =? 116)%N then Some (ascii_of_N 9)
  else None.

Definition unescape_unicode (a b c d : ascii) : option ascii :=
  a' ← hex_val a; b' ← hex_val b; c' ← hex_val c; d' ← hex_val d;
  let n := (((a' * 16 + b') * 16 + c') * 16 + d')%N in
  if (n <? 256)%N then Some (ascii_of_N n) else None.

(** The body of a string token, after the opening quote. *)
Fixpoint parse_string (s : list ascii) : option (list ascii * list ascii) :=
  match s with
  | [] => None
  | c :: r =>
      if Ascii.eqb c dquote then Some ([], r)
      else if Ascii.eqb c backslash then
        match r with
        | e :: r1 =>
            if Ascii.eqb e "u" then
              match r1 with
              | h1 :: h2 :: h3 :: h4 :: r2 =>
                  x ← unescape_unicode h1 h2 h3 h4;
                  '(str, r3) ← parse_string r2;
                  Some (x :: str, r3)
              | _ => None
              end
            else
              x ← unescape_simple e;
              '(str, r2) ← parse_string r1;
              Some (x :: str, r2)
        | [] => None
        end
      else if (code c <? 32)%N then None
      else '(str, r1) ← parse_string r; Some (c :: str, r1)
  end.

(** *** Values *)

Fixpoint join (sep : ascii) (parts : list (list ascii)) : list ascii :=
  match parts with
  | [] => []
  | [p] => p
  | p :: ps => p ++ sep :: join sep ps
  end.

Definition encode_member (enc : Json → list ascii) (kv : string * Json)
  : list ascii :=
  quote_chars (chars kv.1) ++ ":"%char :: enc kv.2.

Fixpoint encode (v : Json) : list ascii :=
  match v with
  | JNull => chars "null"
  | JBool b => if b then chars "true" else chars "false"
  | JNum n => number_text n
  | JStr s => quote_chars (chars s)
  | JArr l => "["%char :: join "," (map encode l) ++ ["]"%char]
  | JObj o =>
      "{"%char
        :: join "," (map (encode_member encode) o) ++ ["}"%char]
  end.

(** [JSON.stringify] on a value of the JSON data model. *)
Definition stringify (v : Json) : string :=
  String.string_of_list_ascii (encode v).

Fixpoint skip_ws (s : list ascii) : list ascii :=
  match s with
  | c :: r => if is_ws c then skip_ws r else s
  | [] => []
  end.

Fixpoint strip_prefix (p s : list ascii) : option (list ascii) :=
  match p, s with
  | [], _ => Some s
  | a :: p', b :: s' => if Ascii.eqb a b then strip_prefix p' s' else None
  | _ :: _, [] => None
  end.

Fixpoint parse_value (fuel : nat) (s : list ascii)
  : option (Json * list ascii) :=
  match fuel with
  | O => None
  | S f =>
      match skip_ws s with
      | [] => None
      | c :: r =>
          if Ascii.eqb c "n" then
            r' ← strip_prefix (chars "ull") r; Some (JNull, r')
          else if Ascii.eqb c "t" then
            r' ← strip_prefix (chars "rue") r; Some (JBool true, r')
          else if Ascii.eqb c "f" then
            r' ← strip_prefix (chars "alse") r; Some (JBool false, r')
          else if Ascii.eqb c dquote then
            '(str, r') ← parse_string r;
            Some (JStr (String.string_of_list_ascii str), r')
          else if Ascii.eqb c "[" then
            match skip_ws r with
            | c' :: r' =>
                if Ascii.eqb c' "]" then Some (JArr [], r')
                else '(l, r'') ← parse_elements f r; Some (JArr l, r'')
            | [] => None
            end
          else if Ascii.eqb c "{" then
            match skip_ws r with
            | c' :: r' =>
                if Ascii.eqb c' "}" then Some (JObj [], r')
                else
                  '(ms, r'') ← parse_members f r;
                  Some (JObj (obj_assign [] ms), r'')
            | [] => None
            end
          else
            '(n, r') ← parse_number (c :: r); Some (JNum n, r')
      end
  end
with parse_elements (fuel : nat) (s : list ascii)
  : option (list Json * list ascii) :=
  match fuel with
  | O => None
  | S f =>
      '(v, r) ← parse_value f s;
      match skip_ws r with
      | c :: r' =>
          if Ascii.eqb c "," then
            '(vs, r'') ← parse_elements f r'; Some (v :: vs, r'')
          else if Ascii.eqb c "]" then Some ([v], r')
          else None
      | [] => None
      end
  end
with parse_members (fuel : nat) (s : list ascii)
  : option (list (string * Json) * list ascii) :=
  match fuel with
  | O => None
  | S f =>
      match skip_ws s with
      | c :: r =>
          if Ascii.eqb c dquote then
            '(k, r1) ← parse_string r;
            match skip_ws r1 with
            | c1 :: r2 =>
                if Ascii.eqb c1 ":" then
                  '(v, r3) ← parse_value f r2;
                  match skip_ws r3 with
                  | c3 :: r4 =>
                      if Ascii.eqb c3 "," then
                        '(ms, r5) ← parse_members f r4;
                        Some ((String.string_of_list_ascii k, v) :: ms, r5)
                      else if Ascii.eqb c3 "}" then
                        Some ([(String.string_of_list_ascii k, v)], r4)
                      else None
                  | [] => None
                  end
                else None
            | [] => None
            end
          else None
      | [] => None
      end
  end.

(** [JSON.parse]: [None] stands for the [SyntaxError] it raises. *)
Definition parse (text : string) : option Json :=
  let s := chars text in
  '(v, r) ← parse_value (S (length s)) s;
  match skip_ws r with
  | [] => Some v
  | _ :: _ => None
  end.
End JSON.

(** ** Runtime values: exceptions, truthiness, equality, property access *)

Inductive JsError : Type := SyntaxError | TypeError.

Inductive Exc (A : Type) : Type :=
| Throw (e : JsError)
| Ret (a : A).
Arguments Throw {A} e.
Arguments Ret {A} a.

Global Instance Exc_ret : MRet Exc := λ A, Ret.
Global Instance Exc_bind : MBind Exc := λ A B f m,
  match m with
  | Throw e => Throw e
  | Ret a => f a
  end.
Global Instance Exc_fmap : FMap Exc := λ A B f m,
  match m with
  | Throw e => Throw e
  | Ret a => Ret (f a)
  end.

Definition null : JsVal := Some JNull.

(** [!!v] *)
Definition truthy (v : JsVal) : bool :=
  match v with
  | None => false
  | Some JNull => false
  | Some (JBool b) => b
  | Some (JNum n) => negb (n =? 0)
  | Some (JStr s) => negb (bool_decide (s = ""%string))
  | Some (JArr _) => true
  | Some (JObj _) => true
  end.

(** [a === b] *)
Definition strict_eq (a b : JsVal) : bool :=
  match a, b with
  | None, None => true
  | Some JNull, Some JNull => true
  | Some (JBool x), Some (JBool y) => bool_decide (x = y)
  | Some (JNum x), Some (JNum y) => x =? y
  | Some (JStr x), Some (JStr y) => bool_decide (x = y)
  | _, _ => false
  end.

(** [v == null] *)
Definition nullish (v : JsVal) : bool :=
  match v with
  | None => true
  | Some JNull => true
  | Some _ => false
  end.

Definition string_of_index (i : nat) : string :=
  String.string_of_list_ascii (JSON.digits (Z.of_nat i)).

(** A property key that is a canonical array index. *)
Definition index_of_key (k : string) : option nat :=
  let ds := chars k in
  let i := Z.to_nat (JSON.digits_value ds) in
  if forallb Chr.is_digit ds && bool_decide (string_of_index i = k)
  then Some i else None.

(** [v[k]]: reading a property of [undefined] or [null] raises. *)
Definition get_prop (v : JsVal) (k : string) : Exc JsVal :=
  match v with
  | None => Throw TypeError
  | Some JNull => Throw TypeError
  | Some (JObj o) => Ret (obj_get k o)
  | Some (JArr l) =>
      Ret (if decide (k = "length"%string)
           then Some (JNum (Z.of_nat (length l)))
           else i ← index_of_key k; l !! i)
  | Some (JStr s) =>
      Ret (if decide (k = "length"%string)
           then Some (JNum (Z.of_nat (String.length s)))
           else i ← index_of_key k; c ← chars s !! i;
                Some (JStr (String.String c String.EmptyString)))
  | Some (JBool _) => Ret None
  | Some (JNum _) => Ret None
  end.

(** The own enumerable properties copied by a spread [{...v}]. *)
Definition own_props (v : JsVal) : list (string * Json) :=
  match v with
  | Some (JObj o) => o
  | Some (JArr l) => imap (λ i x, (string_of_index i, x)) l
  | Some (JStr s) =>
      imap (λ i c, (string_of_index i, JStr (String.String c String.EmptyString)))
           (chars s)
  | _ => []
  end.

(** [{...a, ...b}] *)
Definition spread2 (a b : JsVal) : Json :=
  JObj (obj_assign (obj_assign [] (own_props a)) (own_props b)).

Definition JSON_parse (text : string) : Exc Json :=
  match JSON.parse text with
  | Some v => Ret v
  | None => Throw SyntaxError
  end.

(** [Array.isArray(v)] *)
Definition Array_isArray (v : JsVal) : bool :=
  match v with
  | Some (JArr _) => true
  | _ => false
  end.

(** [Array.prototype.isPrototypeOf(v)]: on values of the JSON data model
    only arrays have [Array.prototype] in their prototype chain. *)
Definition Array_prototype_isPrototypeOf (v : JsVal) : bool :=
  match v with
  | Some (JArr _) => true
  | _ => false
  end.

(** [Array.prototype.filter], [map] and [find] with a callback that may
    raise: elements are visited in order and the first exception wins. *)
Fixpoint filter_exc (f : Json → Exc bool) (l : list Json) : Exc (list Json) :=
  match l with
  | [] => Ret []
  | x :: l' =>
      b ← f x; r ← filter_exc f l'; Ret (if b : bool then x :: r else r)
  end.

Fixpoint map_exc {A B} (f : A → Exc B) (l : list A) : Exc (list B) :=
  match l with
  | [] => Ret []
  | x :: l' => y ← f x; r ← map_exc f l'; Ret (y :: r)
  end.

Fixpoint find_exc (f : Json → Exc bool) (l : list Json) : Exc JsVal :=
  match l with
  | [] => Ret None
  | x :: l' => b ← f x; if b : bool then Ret (Some x) else find_exc f l'
  end.

(** [Array.prototype.sort] with a comparison function, modelled by a stable
    insertion sort: an element moves in front of the first element it
    compares less than or equal to.  Under a consistent comparison function
    every stable sort returns this order; under any other the engines
    differ, and what holds of all of them is stated with
    [comparison_sort]. *)
Fixpoint sort_insert (cmp : Json → Json → Exc Z) (x : Json) (sorted : list Json)
  : Exc (list Json) :=
  match sorted with
  | [] => Ret [x]
  | y :: ys =>
      c ← cmp x y;
      if c <=? 0 then Ret (x :: y :: ys)
      else r ← sort_insert cmp x ys; Ret (y :: r)
  end.

Fixpoint js_sort (cmp : Json → Json → Exc Z) (l : list Json) : Exc (list Json) :=
  match l with
  | [] => Ret []
  | x :: l' => s ← js_sort cmp l'; sort_insert cmp x s
  end.

(** A second sort, to tell what is the engine's choice from what every
    engine does: the stable top-down merge sort.  [merge] takes from the
    right run only an element that compares less than the first of the
    left run. *)
Fixpoint merge (cmp : Json → Json → Exc Z) (xs : list Json)
  : list Json → Exc (list Json) :=
  fix merge_right (ys : list Json) : Exc (list Json) :=
    match xs, ys with
    | [], _ => Ret ys
    | _, [] => Ret xs
    | x :: xs', y :: ys' =>
        c ← cmp y x;
        if c <? 0 then r ← merge_right ys'; Ret (y :: r)
        else r ← merge cmp xs' ys; Ret (x :: r)
    end.

Fixpoint merge_sort_fuel (fuel : nat) (cmp : Json → Json → Exc Z) (l : list Json)
  : Exc (list Json) :=
  match fuel with
  | O => Ret l
  | S f =>
      match l with
      | [] => Ret l
      | [_] => Ret l
      | _ =>
          let n := (length l / 2)%nat in
          a ← merge_sort_fuel f cmp (take n l);
          b ← merge_sort_fuel f cmp (drop n l);
          merge cmp a b
      end
  end.

Definition merge_sort (cmp : Json → Json → Exc Z) (l : list Json)
  : Exc (list Json) :=
  merge_sort_fuel (length l) cmp l.

(** *** What the sorts of the engines have in common

    ECMAScript fixes the result of [Array.prototype.sort] under a
    consistent comparison function only; under any other the order is the
    implementation's.  The implementations are comparison sorts, and a
    comparison sort puts an element in front of another on the answer of a
    comparison only. *)

(** The comparison put [a] and [b] in this order: asked about [a] and [b]
    it did not answer greater, or asked about [b] and [a] it did not
    answer less. *)
Definition in_order (cmp : Json → Json → Exc Z) (a b : Json) : bool :=
  match cmp a b with
  | Ret c => c <=? 0
  | Throw _ => false
  end
  || match cmp b a with
     | Ret c => 0 <=? c
     | Throw _ => false
     end.

(** [a] is linked to [b] by a chain of values, each in order with the
    next. *)
Definition linked (cmp : Json → Json → Exc Z) : relation Json :=
  rtc (λ u w, in_order cmp u w = true).

(** Every element of [r] is linked to the next one. *)
Definition ordered_by (cmp : Json → Json → Exc Z) (r : list Json) : Prop :=
  Sorted (linked cmp) r.

(** The comparison answers on the elements of [l]. *)
Definition answers (cmp : Json → Json → Exc Z) (l : list Json) : Prop :=
  ∀ a b, a ∈ l → b ∈ l → ∃ c, cmp a b = Ret c.

(** A comparison sort: what it returns is the elements rearranged, each
    linked to the next; and it returns when the comparison answers on the
    elements. *)
Definition comparison_sort
    (sort : (Json → Json → Exc Z) → list Json → Exc (list Json)) : Prop :=
  ∀ cmp l,
    (∀ r, sort cmp l = Ret r → r ≡ₚ l ∧ ordered_by cmp r)
    ∧ (answers cmp l → ∃ r, sort cmp l = Ret r).

(** [Array.from(new Set(l))]: one copy of each text, in order of first
    insertion. *)
Definition set_of_texts (l : list string) : list string :=
  fold_left (λ seen t, if bool_decide (t ∈ seen) then seen else seen ++ [t]) l [].

(** [Array.prototype.flat()] with the default depth of one: an element
    that is an array is replaced by its own elements, any other element
    stays. *)
Definition Array_flat (l : list Json) : list Json :=
  List.concat (map (λ a, match a with JArr x => x | _ => [a] end) l).

(** The locale-dependent string functions of the runtime, used by the
    sort helpers. *)
Class Locale : Type := {
  toLocaleLowerCase : string → string;
  localeCompare : string → string → Z
}.

(** ** src/utils/array/array.ts *)

Module array.

Definition as_list (arr : JsVal) : list Json :=
  match arr with
  | Some (JArr l) => l
  | _ => []
  end.

(** Checks that the value is an array (array.ts, line 6). *)
Definition _isArray (arr : JsVal) : bool := Array_prototype_isPrototypeOf arr.

(** Adds an item at the end of an array; [null] when the array or the item
    is rejected (array.ts, lines 14-17). *)
Definition _addArray (arr item : JsVal) : Json :=
  if negb (truthy arr) || negb (_isArray arr) || negb (truthy item) then JNull
  else
    match item with
    | Some x => JArr (as_list arr ++ [x])
    | None => JArr (as_list arr) (* not reached: [undefined] is falsy *)
    end.

(** Removes the elements with the given id; [null] when the array or the id
    is rejected (array.ts, lines 25-28). *)
Definition _removeArray (arr id : JsVal) : Exc Json :=
  if negb (truthy arr) || negb (_isArray arr) || negb (truthy id) then Ret JNull
  else
    JArr <$> filter_exc
      (λ a, aid ← get_prop (Some a) "id"; Ret (negb (strict_eq aid id)))
      (as_list arr).

(** Merges the item into the elements that have its id; [null] when the
    array or the item is rejected (array.ts, lines 36-39). *)
Definition _updateArray (arr item : JsVal) : Exc Json :=
  if negb (truthy arr) || negb (_isArray arr) || negb (truthy item) then Ret JNull
  else
    JArr <$> map_exc
      (λ a, aid ← get_prop (Some a) "id";
            iid ← get_prop item "id";
            Ret (if strict_eq aid iid then spread2 (Some a) item else a))
      (as_list arr).

(** The first element with the given id, or [null] (array.ts, lines 47-52). *)
Definition _findById (arr id : JsVal) : Exc Json :=
  if negb (_isArray arr) || negb (truthy arr) || negb (truthy id) then Ret JNull
  else
    item ← find_exc
      (λ a, aid ← get_prop (Some a) "id"; Ret (strict_eq aid id))
      (as_list arr);
    if negb (truthy item) then Ret JNull
    else Ret (default JNull item).

(** Removes duplicates, comparing elements by their serialised text
    (array.ts, lines 69-72). *)
Definition _removeDuplicates (arr : JsVal) : Exc Json :=
  if negb (truthy arr) || negb (Array_isArray arr) then Ret JNull
  else
    JArr <$> map_exc JSON_parse
      (set_of_texts (map JSON.stringify (as_list arr))).

Section Sorting.
Context `{Locale}.

(** The comparison function of [_ascendingOrder] (array.ts, lines 81-93). *)
Definition ascending_compare (key : string) (a b : Json) : Exc Z :=
  ak ← get_prop (Some a) key;
  bk ← get_prop (Some b) key;
  if nullish ak && nullish bk then Ret 0
  else if nullish ak then Ret 1
  else if nullish bk then Ret (-1)
  else
    match ak, bk with
    | Some (JNum x), Some (JNum y) => Ret (x - y)
    | Some (JStr x), Some (JStr y) =>
        Ret (localeCompare (toLocaleLowerCase x) (toLocaleLowerCase y))
    | _, _ => Ret 0
    end.

(** The comparison function of [_descendingOrder] (array.ts, lines 104-119). *)
Definition descending_compare (key : string) (a b : Json) : Exc Z :=
  ak ← get_prop (Some a) key;
  bk ← get_prop (Some b) key;
  if nullish ak && nullish bk then Ret 0
  else if nullish ak then Ret 1
  else if nullish bk then Ret (-1)
  else
    match ak, bk with
    | Some (JNum x), Some (JNum y) => Ret (y - x)
    | Some (JStr x), Some (JStr y) =>
        Ret (localeCompare (toLocaleLowerCase y) (toLocaleLowerCase x))
    | _, _ => Ret 0
    end.

(** Sorts in ascending order of the field (array.ts, lines 80-94).  No
    guard here: calling [sort] on anything but an array raises. *)
Definition _ascendingOrder (arr : JsVal) (key : string) : Exc Json :=
  match arr with
  | Some (JArr l) => JArr <$> js_sort (ascending_compare key) l
  | _ => Throw TypeError
  end.

(** Sorts in descending order of the field; [null] when the array is
    rejected (array.ts, lines 102-120). *)
Definition _descendingOrder (arr : JsVal) (key : string) : Exc Json :=
  if negb (truthy arr) || negb (Array_isArray arr) then Ret JNull
  else JArr <$> js_sort (descending_compare key) (as_list arr).
End Sorting.

(** The last element of an array, [undefined] on an empty one; [null]
    when the array is rejected (array.ts, lines 59-62). *)
Definition _findLast (arr : JsVal) : JsVal :=
  if negb (truthy arr) || negb (_isArray arr) then null
  else
    let i := Z.of_nat (length (as_list arr)) - 1 in
    if i <? 0 then undefined else as_list arr !! Z.to_nat i.

(** Merges the arrays given as arguments; the rest parameter [arrs] is the
    array of the arguments (array.ts, lines 127-130). *)
Definition _merge (arrs : list Json) : Json :=
  if negb (truthy (Some (JArr arrs))) || negb (Array_isArray (Some (JArr arrs)))
  then JNull
  else JArr (Array_flat arrs).

(** Removes the elements on which the callback answers a truthy value
    (array.ts, lines 138-140).  No guard here: calling [filter] on
    anything but an array raises. *)
Definition _removeIf (arr : JsVal) (callback : Json → Exc JsVal) : Exc Json :=
  match arr with
  | Some (JArr l) =>
      JArr <$> filter_exc (λ i, r ← callback i; Ret (negb (truthy r))) l
  | _ => Throw TypeError
  end.

(** Whether an array is empty; [null] when the array is rejected
    (array.ts, lines 147-150). *)
Definition _isEmpty (arr : JsVal) : Json :=
  if negb (truthy arr) || negb (Array_isArray arr) then JNull
  else JBool (negb (truthy (Some (JNum (Z.of_nat (length (as_list arr))))))).

End array.

(** ** The sort helpers on any engine

    The sort and the prototype chain are the engine's: which order
    [Array.prototype.sort] returns under a comparison function that is not
    consistent, and which names a value inherits.  Here both are arguments
    of the sort helpers. *)

Module engine.

(** What [a[key]] finds: a property of the value itself, [undefined] where
    there is none ([Own None]), or a property of a prototype.  The
    properties the values of the data model inherit are methods and
    prototype objects: such a value is neither [null] nor [undefined], and
    neither a number nor a string. *)
Inductive Field : Type :=
| Own (v : JsVal)
| Inherited.

(** [f == null] *)
Definition nullish_field (f : Field) : bool :=
  match f with
  | Own v => nullish v
  | Inherited => false
  end.

(** [a[key]], along the prototype chain: [inherits a key] says whether a
    prototype of [a] has a property [key].  Reading a property of [null]
    raises. *)
Definition read (inherits : Json → string → bool) (a : Json) (key : string)
  : Exc Field :=
  v ← get_prop (Some a) key;
  Ret (match v with
       | Some x => Own (Some x)
       | None => if inherits a key then Inherited else Own None
       end).

Section Engine.
Context `{Locale}.
Variable inherits : Json → string → bool.
Variable sort : (Json → Json → Exc Z) → list Json → Exc (list Json).

(** The comparison function of [_ascendingOrder] (array.ts, lines 81-93). *)
Definition ascending_compare (key : string) (a b : Json) : Exc Z :=
  ak ← read inherits a key;
  bk ← read inherits b key;
  if nullish_field ak && nullish_field bk then Ret 0
  else if nullish_field ak then Ret 1
  else if nullish_field bk then Ret (-1)
  else
    match ak, bk with
    | Own (Some (JNum x)), Own (Some (JNum y)) => Ret (x - y)
    | Own (Some (JStr x)), Own (Some (JStr y)) =>
        Ret (localeCompare (toLocaleLowerCase x) (toLocaleLowerCase y))
    | _, _ => Ret 0
    end.

(** The comparison function of [_descendingOrder] (array.ts, lines 104-119). *)
Definition descending_compare (key : string) (a b : Json) : Exc Z :=
  ak ← read inherits a key;
  bk ← read inherits b key;
  if nullish_field ak && nullish_field bk then Ret 0
  else if nullish_field ak then Ret 1
  else if nullish_field bk then Ret (-1)
  else
    match ak, bk with
    | Own (Some (JNum x)), Own (Some (JNum y)) => Ret (y - x)
    | Own (Some (JStr x)), Own (Some (JStr y)) =>
        Ret (localeCompare (toLocaleLowerCase y) (toLocaleLowerCase x))
    | _, _ => Ret 0
    end.

(** Sorts in ascending order of the field (array.ts, lines 80-94).  No
    guard here: calling [sort] on anything but an array raises. *)
Definition _ascendingOrder (arr : JsVal) (key : string) : Exc Json :=
  match arr with
  | Some (JArr l) => JArr <$> sort (ascending_compare key) l
  | _ => Throw TypeError
  end.

(** Sorts in descending order of the field; [null] when the array is
    rejected (array.ts, lines 102-120). *)
Definition _descendingOrder (arr : JsVal) (key : string) : Exc Json :=
  if negb (truthy arr) || negb (Array_isArray arr) then Ret JNull
  else JArr <$> sort (descending_compare key) (array.as_list arr).
End Engine.

End engine.

(** ** src/types/localStorage/ErrorLS.ts and ReturnLS *)

Inductive ErrorLS : Type :=
| WINDOW_IS_UNDEFINED
| NO_KEY
| NO_DEFAULT_VALUE
| ALREADY_EXISTS
| NOT_ASSOCIATED
| UNABLE_TO_ADD
| UNABLE_TO_UPDATE
| UNABLE_TO_FIND
| NOT_ARRAY_TYPE
| ARRAY_NULL.

Global Instance ErrorLS_eq_dec : EqDecision ErrorLS.
Proof. solve_decision. Defined.

Definition ErrorLS_text (e : ErrorLS) : string :=
  match e with
  | WINDOW_IS_UNDEFINED => "The window object is not defined"
  | NO_KEY => "No key was provided"
  | NO_DEFAULT_VALUE => "No default value was provided"
  | ALREADY_EXISTS => "An item in local storage is already initialized with this key"
  | NOT_ASSOCIATED => "No local storage entry is associated with this key"
  | UNABLE_TO_ADD => "Unable to add the item to the array"
  | UNABLE_TO_UPDATE => "Unable to update the item in the array"
  | UNABLE_TO_FIND => "Unable to find the item in the array"
  | NOT_ARRAY_TYPE => "The local storage value is not of array type"
  | ARRAY_NULL => "The existing array is null"
  end.

(** Truthiness of an optional [error] field: the enum members are strings. *)
Definition error_truthy (e : option ErrorLS) : bool :=
  match e with
  | Some e => negb (bool_decide (ErrorLS_text e = ""%string))
  | None => false
  end.

(** The result envelope.  An absent [error], [variables] or [result] field
    is [None]. *)
Record ReturnLS : Type := mkReturnLS {
  state : bool;
  error : option ErrorLS;
  variables : option (list (string * JsVal));
  result : JsVal
}.

Definition failure (e : option ErrorLS) (vars : list (string * JsVal)) : ReturnLS :=
  {| state := false; error := e; variables := Some vars; result := None |}.

Definition success (vars : list (string * JsVal)) : ReturnLS :=
  {| state := true; error := None; variables := Some vars; result := None |}.

Definition success_with (vars : list (string * JsVal)) (res : Json) : ReturnLS :=
  {| state := true; error := None; variables := Some vars; result := Some res |}.

(** ** The browser: the [window] object and [localStorage] *)

Record World : Type := mkWorld {
  has_window : bool;
  storage : gmap string string
}.

(** Computations that read and write the world and may raise. *)
Definition LS (A : Type) : Type := World → Exc (A * World).

Global Instance LS_ret : MRet LS := λ A a w, Ret (a, w).
Global Instance LS_bind : MBind LS := λ A B f m w,
  match m w with
  | Throw e => Throw e
  | Ret (a, w') => f a w'
  end.

Definition lift {A} (m : Exc A) : LS A := λ w,
  match m with
  | Throw e => Throw e
  | Ret a => Ret (a, w)
  end.

(** [typeof window === "undefined"] *)
Definition window_is_undefined : LS bool := λ w, Ret (negb (has_window w), w).

(** [localStorage.getItem(key)]: [None] is the [null] of a missing key. *)
Definition getItem (key : string) : LS (option string) := λ w,
  Ret (storage w !! key, w).

Definition setItem (key text : string) : LS unit := λ w,
  Ret ((), {| has_window := has_window w; storage := <[key := text]> (storage w) |}).

Definition clear : LS unit := λ w,
  Ret ((), {| has_window := has_window w; storage := ∅ |}).

(** The text handed to [setItem] for [JSON.stringify(v)]: serialising
    [undefined] yields [undefined], which [setItem] stores as a string. *)
Definition stringify_arg (v : JsVal) : string :=
  match v with
  | Some j => JSON.stringify j
  | None => "undefined"
  end.

(** [!item] on the result of [getItem]. *)
Definition text_truthy (item : option string) : bool :=
  match item with
  | Some t => negb (bool_decide (t = ""%string))
  | None => false
  end.

(** ** src/utils/localStorage/localStorage.ts *)

Module localStorage.

(** Retrieves an item (localStorage.ts, lines 31-42). *)
Definition _getItem (key : string) : LS ReturnLS :=
  undef ← window_is_undefined;
  if undef : bool then
    mret (failure (Some WINDOW_IS_UNDEFINED) [("key"%string, Some (JStr key))])
  else if bool_decide (key = ""%string) then
    mret (failure (Some NO_KEY) [("key"%string, Some (JStr key))])
  else
    item ← getItem key;
    if negb (text_truthy item) then
      mret (failure (Some NOT_ASSOCIATED) [("key"%string, Some (JStr key))])
    else
      res ← lift (JSON_parse (default ""%string item));
      mret (success_with [("key"%string, Some (JStr key))] res).

(** Initialises a key with a default value (localStorage.ts, lines 11-21). *)
Definition _initializeStorage (key : string) (defaultValue : JsVal)
  : LS ReturnLS :=
  let vars := [("key"%string, Some (JStr key));
               ("defaultValue"%string, defaultValue)] in
  undef ← window_is_undefined;
  if undef : bool then mret (failure (Some WINDOW_IS_UNDEFINED) vars)
  else if strict_eq defaultValue undefined then
    mret (failure (Some NO_DEFAULT_VALUE) vars)
  else
    got ← _getItem key;
    if error_truthy (error got)
       && negb (bool_decide (error got = Some NOT_ASSOCIATED))
    then mret (failure (error got) vars)
    else if truthy (result got)
            || strict_eq (result got) null
            || strict_eq (result got) (Some (JBool false))
    then mret (failure (Some ALREADY_EXISTS) vars)
    else
      _ ← setItem key (stringify_arg defaultValue);
      mret (success vars).

(** Sets an item (localStorage.ts, lines 51-56). *)
Definition _setItem (key : string) (item : JsVal) : LS ReturnLS :=
  let vars := [("key"%string, Some (JStr key)); ("item"%string, item)] in
  undef ← window_is_undefined;
  if undef : bool then mret (failure (Some WINDOW_IS_UNDEFINED) vars)
  else if bool_decide (key = ""%string) then mret (failure (Some NO_KEY) vars)
  else
    _ ← setItem key (stringify_arg item);
    mret (success vars).

(** The [error] and [result] fields picked from an envelope. *)
Record ArrayLookup : Type := mkArrayLookup {
  lookup_error : option ErrorLS;
  lookup_result : JsVal
}.

(** The sequence stored under a key (localStorage.ts, lines 149-155). *)
Definition _getArray (key : string) : LS ArrayLookup :=
  oldArray ← _getItem key;
  if error_truthy (error oldArray) then
    mret {| lookup_error := error oldArray; lookup_result := null |}
  else if negb (array._isArray (result oldArray)) then
    mret {| lookup_error := Some NOT_ARRAY_TYPE; lookup_result := null |}
  else if negb (truthy (result oldArray)) then
    mret {| lookup_error := Some ARRAY_NULL; lookup_result := null |}
  else
    mret {| lookup_error := None; lookup_result := result oldArray |}.

(** Pushes an item into a stored array (localStorage.ts, lines 65-73). *)
Definition _pushItem (key : string) (item : JsVal) : LS ReturnLS :=
  let vars := [("key"%string, Some (JStr key)); ("item"%string, item)] in
  undef ← window_is_undefined;
  if undef : bool then mret (failure (Some WINDOW_IS_UNDEFINED) vars)
  else
    oldArray ← _getArray key;
    if error_truthy (lookup_error oldArray)
       || strict_eq (lookup_result oldArray) null
    then mret (failure (lookup_error oldArray) vars)
    else
      let newArray := array._addArray (lookup_result oldArray) item in
      if strict_eq (Some newArray) null then
        mret (failure (Some UNABLE_TO_ADD) vars)
      else
        _ ← setItem key (JSON.stringify newArray);
        mret (success vars).

(** Removes an item from a stored array by id (localStorage.ts, lines 82-89). *)
Definition _removeItem (key : string) (id : JsVal) : LS ReturnLS :=
  let vars := [("key"%string, Some (JStr key)); ("id"%string, id)] in
  undef ← window_is_undefined;
  if undef : bool then mret (failure (Some WINDOW_IS_UNDEFINED) vars)
  else
    oldArray ← _getArray key;
    if error_truthy (lookup_error oldArray)
       || strict_eq (lookup_result oldArray) null
    then mret (failure (lookup_error oldArray) vars)
    else
      newArray ← lift (array._removeArray (lookup_result oldArray) id);
      _ ← setItem key (JSON.stringify newArray);
      mret (success vars).

(** Updates an item of a stored array by id (localStorage.ts, lines 98-108). *)
Definition _updateItem (key : string) (updatedItem : JsVal) : LS ReturnLS :=
  let vars := [("key"%string, Some (JStr key));
               ("updatedItem"%string, updatedItem)] in
  undef ← window_is_undefined;
  if undef : bool then mret (failure (Some WINDOW_IS_UNDEFINED) vars)
  else
    oldArray ← _getArray key;
    if error_truthy (lookup_error oldArray)
       || strict_eq (lookup_result oldArray) null
    then mret (failure (lookup_error oldArray) vars)
    else
      newArray ← lift (array._updateArray (lookup_result oldArray) updatedItem);
      if strict_eq (Some newArray) null then
        mret (failure (Some UNABLE_TO_UPDATE) vars)
      else
        _ ← setItem key (JSON.stringify newArray);
        mret (success vars).

(** Finds an item of a stored array by id (localStorage.ts, lines 117-124). *)
Definition _findItemById (key : string) (id : JsVal) : LS ReturnLS :=
  let vars := [("key"%string, Some (JStr key)); ("id"%string, id)] in
  undef ← window_is_undefined;
  if undef : bool then mret (failure (Some WINDOW_IS_UNDEFINED) vars)
  else
    oldArray ← _getArray key;
    if error_truthy (lookup_error oldArray)
       || strict_eq (lookup_result oldArray) null
    then mret (failure (lookup_error oldArray) vars)
    else
      res ← lift (array._findById (lookup_result oldArray) id);
      if negb (truthy (Some res)) then
        mret (failure (Some UNABLE_TO_FIND) vars)
      else mret (success_with vars res).

(** Clears the item of a key (localStorage.ts, lines 131-137). *)
Definition _clear (key : string) : LS ReturnLS :=
  let vars := [("key"%string, Some (JStr key))] in
  undef ← window_is_undefined;
  if undef : bool then mret (failure (Some WINDOW_IS_UNDEFINED) vars)
  else
    oldItems ← _getItem key;
    if error_truthy (error oldItems) then mret (failure (error oldItems) vars)
    else
      _ ← setItem key (JSON.stringify JNull);
      mret (success vars).

(** Clears the whole storage (localStorage.ts, lines 143-147). *)
Definition _clearAll : LS ReturnLS :=
  undef ← window_is_undefined;
  if undef : bool then
    mret {| state := false; error := Some WINDOW_IS_UNDEFINED;
            variables := None; result := None |}
  else
    _ ← clear;
    mret {| state := true; error := None; variables := None; result := None |}.

(** The public operations, as one call type. *)
Inductive Call : Type :=
| Initialize (key : string) (defaultValue : JsVal)
| Get (key : string)
| Set_ (key : string) (item : JsVal)
| Push (key : string) (item : JsVal)
| RemoveById (key : string) (id : JsVal)
| UpdateById (key : string) (updatedItem : JsVal)
| FindById (key : string) (id : JsVal)
| Clear (key : string)
| ClearAll.

Definition run (c : Call) : LS ReturnLS :=
  match c with
  | Initialize key d => _initializeStorage key d
  | Get key => _getItem key
  | Set_ key item => _setItem key item
  | Push key item => _pushItem key item
  | RemoveById key id => _removeItem key id
  | UpdateById key item => _updateItem key item
  | FindById key id => _findItemById key id
  | Clear key => _clear key
  | ClearAll => _clearAll
  end.

End localStorage.

(** ** Well-formed values

    A property list stands for an object when no key occurs twice. *)

Fixpoint wf (v : Json) : bool :=
  match v with
  | JArr l => forallb wf l
  | JObj o => bool_decide (NoDup o.*1) && forallb (λ kv, wf kv.2) o
  | _ => true
  end.

(** ** Auxiliary notions for the codec proofs *)

(** What may follow a value in a text for the value to end there. *)
Definition ends_token (r : list ascii) : Prop :=
  match r with
  | [] => True
  | c :: _ =>
      Chr.is_digit c = false ∧ Ascii.eqb c "." = false
      ∧ Ascii.eqb c "e" = false ∧ Ascii.eqb c "E" = false
  end.

(** The characters a serialised value can begin with. *)
Definition starts_value (c : ascii) : bool :=
  Chr.is_digit c || Ascii.eqb c "-" || Ascii.eqb c "n" || Ascii.eqb c "t"
  || Ascii.eqb c "f" || Ascii.eqb c Chr.dquote || Ascii.eqb c "[" || Ascii.eqb c "{".


(** Parsing the text of [v] gives [v] back, whatever follows. *)
Definition roundtrips (v : Json) : Prop :=
  ∀ fuel r, (length (JSON.encode v) ≤ fuel)%nat → ends_token r →
    JSON.parse_value fuel (JSON.encode v ++ r) = Some (v, r).

(** ** Notions used to state the properties *)

(** The envelope invariant of the data model: the success flag is set
    exactly when no error code is present, and an error code excludes a
    result payload. *)
Definition envelope_ok (r : ReturnLS) : Prop :=
  (state r = true ↔ error r = None) ∧ (error r ≠ None → result r = None).

(** Key [k] holds the value [v]: the medium is available, the key is a
    usable one, and the text stored under it deserialises to [v]. *)
Definition holds (w : World) (k : string) (v : Json) : Prop :=
  has_window w = true ∧ k ≠ ""%string
  ∧ ∃ text, storage w !! k = Some text ∧ JSON.parse text = Some v.

Definition is_array (v : Json) : Prop := ∃ l, v = JArr l.

Definition is_record (v : Json) : Prop := ∃ o, v = JObj o.

(** The value of property [k] of [v], where reading it does not raise. *)
Definition field (v : JsVal) (k : string) : JsVal :=
  match get_prop v k with
  | Ret x => x
  | Throw _ => None
  end.

(** A store every text of which deserialises, and whose sequences contain
    no [null] element (a property read on one would raise). *)
Definition sane_store (w : World) : Prop :=
  ∀ k text, storage w !! k = Some text → text ≠ ""%string →
    ∃ v, JSON.parse text = Some v
         ∧ ∀ l, v = JArr l → Forall (λ a, a ≠ JNull) l.

(** [a'] is the shallow merge of the fields [p] into [a]: a record whose
    every field is the one of [p] when [p] has it, and the one of [a]
    otherwise. *)
Definition merged (a : Json) (p : list (string * Json)) (a' : Json) : Prop :=
  is_record a'
  ∧ ∀ f, field (Some a') f
         = match obj_get f p with
           | Some x => Some x
           | None => field (Some a) f
           end.

(** A sequence after [updateById] with the partial record [p], as the
    specification words it: the elements whose id equals the id of [p]
    take the fields of [p], the others stay. *)
Definition update_by_id (p : list (string * Json)) (l : list Json) : list Json :=
  map (λ a, if strict_eq (field (Some a) "id") (obj_get "id" p)
            then JObj (obj_assign (own_props (Some a)) p)
            else a) l.

(** A browser whose storage holds the given entries. *)
Definition browser (entries : list (string * string)) : World :=
  {| has_window := true; storage := list_to_map entries |}.

(** The sort field of [a], as the helpers read it, is [null] or
    [undefined]. *)
Definition null_on (inherits : Json → string → bool) (key : string) (a : Json)
  : bool :=
  match engine.read inherits a key with
  | Ret f => engine.nullish_field f
  | Throw _ => false
  end.

(** Every element with a [null] or [undefined] sort field stands after
    every element with a proper one. *)
Definition nulls_last_on (inherits : Json → string → bool) (key : string)
    (l : list Json) : Prop :=
  ∀ i j a b, l !! i = Some a → l !! j = Some b →
    null_on inherits key a = true → null_on inherits key b = false → (j < i)%nat.

(** A locale to run the sort helpers in: ASCII lower-casing and comparison
    by code unit. *)
Definition ascii_lower (c : ascii) : ascii :=
  let n := Chr.code c in
  if ((65 <=? n) && (n <=? 90))%N then ascii_of_N (n + 32) else c.

Definition c_locale : Locale := {|
  toLocaleLowerCase := λ s,
    String.string_of_list_ascii (map ascii_lower (chars s));
  localeCompare := λ a b,
    match String.compare a b with
    | Lt => -1
    | Eq => 0
    | Gt => 1
    end
|}.

(** The array of the sorting example of the specification. *)
Definition sample_rows : list Json :=
  [JObj [("v"%string, JNull)]; JObj [("v"%string, JNum 2)];
   JObj [("v"%string, JNum 1)]].

(** The names every value inherits from [Object.prototype]; arrays,
    strings, numbers and booleans inherit more names from prototypes of
    their own, which this sample leaves out. *)
Definition object_prototype_names : list string :=
  ["constructor"; "hasOwnProperty"; "isPrototypeOf"; "propertyIsEnumerable";
   "toLocaleString"; "toString"; "valueOf"; "__proto__"; "__defineGetter__";
   "__defineSetter__"; "__lookupGetter__"; "__lookupSetter__"]%string.

Definition es_inherits (a : Json) (key : string) : bool :=
  bool_decide (key ∈ object_prototype_names).

(** An engine without inherited properties. *)
Definition no_inherits (a : Json) (key : string) : bool := false.

(** An array that mixes numbers and a string under the sort key: the
    comparison functions answer [0] on the string and each number, and
    the numbers differ. *)
Definition mixed_rows : list Json :=
  [JObj [("v"%string, JNum 3)]; JObj [("v"%string, JStr "a")];
   JObj [("v"%string, JNum 2)]; JObj [("v"%string, JNull)];
   JObj [("v"%string, JNum 1)]].

(** Structural equality of values. *)
Fixpoint Json_eqb (x y : Json) : bool :=
  match x, y with
  | JNull, JNull => true
  | JBool a, JBool b => bool_decide (a = b)
  | JNum a, JNum b => a =? b
  | JStr a, JStr b => bool_decide (a = b)
  | JArr l, JArr l' =>
      (fix go (l l' : list Json) : bool :=
         match l, l' with
         | [], [] => true
         | a :: l, b :: l' => Json_eqb a b && go l l'
         | _, _ => false
         end) l l'
  | JObj o, JObj o' =>
      (fix go (o o' : list (string * Json)) : bool :=
         match o, o' with
         | [], [] => true
         | (k, a) :: o, (k', b) :: o' =>
             bool_decide (k = k') && Json_eqb a b && go o o'
         | _, _ => false
         end) o o'
  | _, _ => false
  end.

(** The elements of [l] that equal no element of [seen] and no earlier
    element of [l]: first occurrences, in their original order. *)
Fixpoint first_occurrences_from (seen l : list Json) : list Json :=
  match l with
  | [] => []
  | x :: l' =>
      if existsb (Json_eqb x) seen then first_occurrences_from seen l'
      else x :: first_occurrences_from (seen ++ [x]) l'
  end.

Definition first_occurrences (l : list Json) : list Json :=
  first_occurrences_from [] l.

(** The key a call reads and writes; [clearAll] has none. *)
Definition call_key (c : localStorage.Call) : option string :=
  match c with
  | localStorage.Initialize key _ => Some key
  | localStorage.Get key => Some key
  | localStorage.Set_ key _ => Some key
  | localStorage.Push key _ => Some key
  | localStorage.RemoveById key _ => Some key
  | localStorage.UpdateById key _ => Some key
  | localStorage.FindById key _ => Some key
  | localStorage.Clear key => Some key
  | localStorage.ClearAll => None
  end.

(** The element [a] carries the id [id], by strict equality. *)
Definition has_id (id : JsVal) (a : Json) : bool :=
  strict_eq (field (Some a) "id") id.

(** The number in the sort field of [a]. *)
Definition num_field (key : string) (a : Json) : option Z :=
  match field (Some a) key with
  | Some (JNum n) => Some n
  | _ => None
  end.

(** The number in the sort field of [a], [0] when there is none. *)
Definition num_of (key : string) (a : Json) : Z :=
  default 0 (num_field key a).

(** The sort field of [a] is a proper value that is neither a number nor a
    string: a boolean, an array or an object. *)
Definition other_field (key : string) (a : Json) : bool :=
  match field (Some a) key with
  | Some (JBool _) => true
  | Some (JArr _) => true
  | Some (JObj _) => true
  | _ => false
  end.

(** The numbers of [v] are integers the runtime represents exactly and
    writes in plain digits: their magnitude is below [2^53]. *)
Fixpoint safe_numbers (v : Json) : bool :=
  match v with
  | JNum n => Z.abs n <? 2 ^ 53
  | JArr l => forallb safe_numbers l
  | JObj o => forallb (λ kv, safe_numbers kv.2) o
  | _ => true
  end.

(** A callback that answers the boolean [p i] and never raises. *)
Definition pure_callback (p : Json → bool) : Json → Exc JsVal :=
  λ i, Ret (Some (JBool (p i))).

(** The callback [(a) => a.id === id]. *)
Definition id_callback (id : JsVal) : Json → Exc JsVal :=
  λ a, aid ← get_prop (Some a) "id"; Ret (Some (JBool (strict_eq aid id))).

(** * Properties *)

Import Chr JSON.

(** ** The JSON codec *)

Ltac by_cases_on_char c :=
  destruct c as [[] [] [] [] [] [] [] []]; try discriminate; try reflexivity.

Lemma digit_char_val d : 0 ≤ d < 10 → digit_val (digit_char d) = d.
Proof.
  intros Hd. unfold digit_val, digit_char, code.
  rewrite N_ascii_embedding by lia. lia.
Qed.

Lemma digit_char_is_digit d : 0 ≤ d < 10 → is_digit (digit_char d) = true.
Proof.
  intros Hd. unfold is_digit, digit_char, code.
  rewrite N_ascii_embedding by lia.
  apply andb_true_intro; split; apply N.leb_le; lia.
Qed.

Lemma digit_char_zero d : 0 ≤ d < 10 → digit_char d = "0"%char → d = 0.
Proof.
  intros Hd Heq. apply (f_equal digit_val) in Heq.
  rewrite digit_char_val in Heq by done. exact Heq.
Qed.

Lemma digits_value_snoc l c :
  digits_value (l ++ [c]) = 10 * digits_value l + digit_val c.
Proof. unfold digits_value. by rewrite fold_left_app. Qed.

Lemma digits_fuel_spec fuel : ∀ n,
  0 ≤ n < 2 ^ (Z.of_nat fuel + 1) →
  digits_value (digits_fuel (S fuel) n) = n
  ∧ forallb is_digit (digits_fuel (S fuel) n) = true
  ∧ ∃ d ds, digits_fuel (S fuel) n = d :: ds ∧ (d = "0"%char → n = 0 ∧ ds = []).
Proof.
  assert (∀ n, 0 ≤ n < 10 →
    digits_value [digit_char n] = n
    ∧ forallb is_digit [digit_char n] = true
    ∧ ∃ d ds, [digit_char n] = d :: ds ∧ (d = "0"%char → n = 0 ∧ ds = []))
    as Hsmall.
  { intros n Hn. split; [|split].
    - unfold digits_value. simpl fold_left. rewrite digit_char_val; lia.
    - simpl. rewrite digit_char_is_digit; [done|lia].
    - eexists _, _. split; [done|]. intros H0.
      apply digit_char_zero in H0; [done|lia]. }
  induction fuel as [|fuel IH]; intros n Hn.
  { cbn [digits_fuel]. destruct (Z.ltb_spec n 10) as [Hlt|Hge].
    - apply Hsmall. lia.
    - simpl in Hn. lia. }
  remember (S fuel) as f eqn:Hf. cbn [digits_fuel].
  destruct (Z.ltb_spec n 10) as [Hlt|Hge]; [apply Hsmall; lia|]. subst f.
  assert (0 ≤ n / 10 < 2 ^ (Z.of_nat fuel + 1)) as Hq.
  { split; [apply Z.div_pos; lia|].
    rewrite Nat2Z.inj_succ in Hn.
    replace (Z.succ (Z.of_nat fuel) + 1) with (Z.succ (Z.of_nat fuel + 1)) in Hn by lia.
    rewrite Z.pow_succ_r in Hn by lia.
    apply Z.div_lt_upper_bound; lia. }
  destruct (IH _ Hq) as (Hv & Hd & d & ds & Heq & Hz).
  assert (0 ≤ n `mod` 10 < 10) as Hm by (apply Z.mod_pos_bound; lia).
  split; [|split].
  - rewrite digits_value_snoc, Hv, digit_char_val by done.
    pose proof (Z.div_mod n 10). lia.
  - rewrite forallb_app, Hd. simpl. by rewrite digit_char_is_digit.
  - rewrite Heq. eexists _, _. split; [done|]. intros H0.
    destruct (Hz H0) as [Hq0 _].
    assert (n < 10); [|lia].
    pose proof (Z.div_mod n 10). lia.
Qed.

Lemma digits_spec n :
  0 ≤ n →
  digits_value (digits n) = n
  ∧ forallb is_digit (digits n) = true
  ∧ ∃ d ds, digits n = d :: ds ∧ (d = "0"%char → n = 0 ∧ ds = []).
Proof.
  intros Hn. apply digits_fuel_spec. split; [done|].
  destruct (decide (n = 0)) as [->|Hne]; [done|].
  rewrite Z2Nat.id by apply Z.log2_nonneg.
  replace (Z.log2 n + 1) with (Z.succ (Z.log2 n)) by lia.
  apply Z.log2_spec. lia.
Qed.

Lemma span_digits_app ds r :
  forallb is_digit ds = true →
  match r with [] => True | c :: _ => is_digit c = false end →
  span_digits (ds ++ r) = (ds, r).
Proof.
  induction ds as [|d ds IH]; simpl; intros Hd Hr.
  - destruct r as [|c r]; [done|]. simpl. by rewrite Hr.
  - apply andb_prop in Hd as [Hd1 Hd2]. rewrite Hd1, IH; done.
Qed.

Lemma is_digit_not_minus c : is_digit c = true → Ascii.eqb c "-" = false.
Proof. by_cases_on_char c. Qed.

Lemma parse_magnitude_digits n r :
  0 ≤ n → ends_token r → parse_magnitude (digits n ++ r) = Some (n, r).
Proof.
  intros Hn Hr. unfold parse_magnitude.
  destruct (digits_spec n Hn) as (Hv & Hd & d & ds & Heq & Hz).
  rewrite span_digits_app; [|done|by destruct r; [|apply Hr]].
  rewrite Heq in *.
  assert (Ascii.eqb d "0" && negb (bool_decide (ds = [])) = false) as ->.
  { destruct (Ascii.eqb_spec d "0") as [H0|]; [|done].
    destruct (Hz H0) as [_ ->]. done. }
  destruct r as [|c r]; [by rewrite Hv|].
  destruct Hr as (_ & -> & -> & ->). simpl. by rewrite Hv.
Qed.

Lemma parse_number_text n r :
  ends_token r → parse_number (number_text n ++ r) = Some (n, r).
Proof.
  intros Hr. unfold number_text, parse_number.
  destruct (Z.ltb_spec n 0) as [Hneg|Hpos].
  - simpl. rewrite parse_magnitude_digits by (done || lia). simpl.
    do 2 f_equal. lia.
  - destruct (digits_spec n Hpos) as (_ & Hd & d & ds & Heq & _).
    pose proof (parse_magnitude_digits n r Hpos Hr) as Hm.
    rewrite Heq in Hd, Hm |- *. simpl in Hd. apply andb_prop in Hd as [Hd _].
    simpl app in *. cbv beta iota. by rewrite (is_digit_not_minus d Hd).
Qed.

Lemma parse_string_escape c tl :
  parse_string (escape_char c ++ tl)
  = '(str, r) ← parse_string tl; Some (c :: str, r).
Proof. destruct c as [[] [] [] [] [] [] [] []]; reflexivity. Qed.

Lemma parse_string_escaped s r :
  parse_string (List.concat (map escape_char s) ++ dquote :: r) = Some (s, r).
Proof.
  induction s as [|c s IH]; [reflexivity|].
  simpl. rewrite <- app_assoc, parse_string_escape, IH. reflexivity.
Qed.

Lemma quote_chars_app s r :
  quote_chars s ++ r = dquote :: List.concat (map escape_char s) ++ dquote :: r.
Proof. unfold quote_chars. simpl. by rewrite <- app_assoc. Qed.

Lemma starts_value_not_ws c : starts_value c = true → is_ws c = false.
Proof. by_cases_on_char c. Qed.
Lemma starts_value_not_close c :
  starts_value c = true → Ascii.eqb c "]" = false ∧ Ascii.eqb c "}" = false.
Proof. by_cases_on_char c; done. Qed.

Lemma skip_ws_head c tl : is_ws c = false → skip_ws (c :: tl) = c :: tl.
Proof. intros H. simpl. by rewrite H. Qed.

Lemma parse_value_string f tl :
  parse_value (S f) (dquote :: tl)
  = '(str, r') ← parse_string tl; Some (JStr (String.string_of_list_ascii str), r').
Proof. reflexivity. Qed.

Lemma parse_value_array f tl :
  parse_value (S f) ("["%char :: tl)
  = match skip_ws tl with
    | c' :: r' =>
        if Ascii.eqb c' "]" then Some (JArr [], r')
        else '(l, r'') ← parse_elements f tl; Some (JArr l, r'')
    | [] => None
    end.
Proof. reflexivity. Qed.

Lemma parse_value_object f tl :
  parse_value (S f) ("{"%char :: tl)
  = match skip_ws tl with
    | c' :: r' =>
        if Ascii.eqb c' "}" then Some (JObj [], r')
        else '(ms, r'') ← parse_members f tl; Some (JObj (obj_assign [] ms), r'')
    | [] => None
    end.
Proof. reflexivity. Qed.

Lemma parse_value_number f c tl :
  is_digit c || Ascii.eqb c "-" = true →
  parse_value (S f) (c :: tl)
  = '(n, r') ← parse_number (c :: tl); Some (JNum n, r').
Proof. by_cases_on_char c. Qed.

Lemma number_text_head n :
  ∃ c tl, number_text n = c :: tl ∧ is_digit c || Ascii.eqb c "-" = true.
Proof.
  unfold number_text. destruct (Z.ltb_spec n 0) as [Hneg|Hpos].
  - by eexists _, _.
  - destruct (digits_spec n Hpos) as (_ & Hd & d & ds & Heq & _).
    rewrite Heq in *. exists d, ds. split; [done|].
    simpl in Hd. apply andb_prop in Hd as [-> _]. done.
Qed.

Lemma encode_head v : ∃ c tl, encode v = c :: tl ∧ starts_value c = true.
Proof.
  destruct v as [|[]|n|s|l|o]; try (by eexists _, _).
  destruct (number_text_head n) as (c & tl & Heq & Hc).
  exists c, tl. split; [done|]. unfold starts_value.
  apply orb_prop in Hc as [->| ->]; [done|]. by rewrite orb_true_r.
Qed.

Lemma obj_set_fresh k v o : k ∉ o.*1 → obj_set k v o = o ++ [(k, v)].
Proof.
  induction o as [|[k' v'] o IH]; intros Hk; [done|].
  simpl in *. apply not_elem_of_cons in Hk as [Hne Hk].
  destruct (decide (k = k')); [done|]. by rewrite IH.
Qed.

Lemma obj_assign_fresh src : ∀ o,
  NoDup (o.*1 ++ src.*1) → obj_assign o src = o ++ src.
Proof.
  unfold obj_assign.
  induction src as [|[k v] src IH]; intros o Hnd; simpl.
  - by rewrite app_nil_r.
  - simpl in Hnd. rewrite obj_set_fresh.
    + rewrite IH; [by rewrite <- app_assoc|].
      rewrite fmap_app. simpl. rewrite <- app_assoc. exact Hnd.
    + apply NoDup_app in Hnd as (_ & Hdisj & _). intros Hin.
      apply (Hdisj k Hin). left.
Qed.

Lemma obj_assign_nil o : NoDup o.*1 → obj_assign [] o = o.
Proof. intros H. by rewrite obj_assign_fresh. Qed.

Lemma ends_token_comma r : ends_token (","%char :: r).
Proof. done. Qed.
Lemma ends_token_bracket r : ends_token ("]"%char :: r).
Proof. done. Qed.
Lemma ends_token_brace r : ends_token ("}"%char :: r).
Proof. done. Qed.

Lemma join_cons2 sep p q ps :
  join sep (p :: q :: ps) = p ++ sep :: join sep (q :: ps).
Proof. reflexivity. Qed.

Lemma elements_roundtrip l :
  l ≠ [] → Forall roundtrips l →
  ∀ fuel r, (length (join "," (map encode l)) + 1 ≤ fuel)%nat →
    parse_elements fuel (join "," (map encode l) ++ "]"%char :: r) = Some (l, r).
Proof.
  intros Hne Hall. induction Hall as [|x l Hx Hall IH]; [done|].
  intros fuel r Hfuel. destruct fuel as [|fuel]; [lia|].
  destruct l as [|y l].
  - simpl in *. rewrite Hx; [|lia|apply ends_token_bracket]. reflexivity.
  - rewrite (map_cons _ x), (map_cons _ y), join_cons2 in Hfuel |- *.
    rewrite <- (map_cons _ y l) in Hfuel |- *.
    remember (join "," (map encode (y :: l))) as J eqn:HJ.
    rewrite length_app in Hfuel. simpl length in Hfuel.
    rewrite <- app_assoc. cbn [parse_elements].
    rewrite <- app_comm_cons.
    rewrite Hx; [|lia|apply ends_token_comma].
    cbn [mbind option_bind]. rewrite skip_ws_head by done.
    change (Ascii.eqb "," ",") with true. cbv iota.
    rewrite IH; [done|done|lia].
Qed.

Lemma members_roundtrip o :
  o ≠ [] → Forall (λ kv, roundtrips kv.2) o →
  ∀ fuel r, (length (join "," (map (encode_member encode) o)) + 1 ≤ fuel)%nat →
    parse_members fuel (join "," (map (encode_member encode) o) ++ "}"%char :: r)
    = Some (o, r).
Proof.
  intros Hne Hall. induction Hall as [|[k x] o Hx Hall IH]; [done|].
  intros fuel r Hfuel. destruct fuel as [|fuel]; [lia|].
  simpl in Hx.
  assert (∀ tl, parse_members (S fuel) (encode_member encode (k, x) ++ tl)
    = '(v, r3) ← parse_value fuel (encode x ++ tl);
      match skip_ws r3 with
      | c3 :: r4 =>
          if Ascii.eqb c3 "," then
            '(ms, r5) ← parse_members fuel r4; Some ((k, v) :: ms, r5)
          else if Ascii.eqb c3 "}" then Some ([(k, v)], r4)
          else None
      | [] => None
      end) as Hstep.
  { intros tl.
    assert (encode_member encode (k, x) ++ tl
            = dquote :: List.concat (map escape_char (chars k))
                ++ dquote :: ":"%char :: encode x ++ tl) as ->.
    { unfold encode_member, quote_chars. simpl.
      by rewrite <- !app_assoc. }
    cbn [parse_members]. rewrite skip_ws_head by done.
    change (Ascii.eqb dquote dquote) with true. cbv iota.
    rewrite parse_string_escaped. simpl.
    unfold chars. by rewrite String.string_of_list_ascii_of_string. }
  destruct o as [|y o].
  - change (join "," (map (encode_member encode) [(k, x)]))
      with (encode_member encode (k, x)) in *.
    rewrite Hstep.
    unfold encode_member in Hfuel. rewrite length_app in Hfuel. simpl in Hfuel.
    rewrite Hx; [|lia|apply ends_token_brace]. reflexivity.
  - rewrite (map_cons _ (k, x)), (map_cons _ y), join_cons2 in Hfuel |- *.
    rewrite <- (map_cons _ y o) in Hfuel |- *.
    remember (join "," (map (encode_member encode) (y :: o))) as J eqn:HJ.
    rewrite length_app in Hfuel. unfold encode_member in Hfuel at 1.
    rewrite length_app in Hfuel. simpl in Hfuel.
    rewrite <- app_assoc, Hstep. rewrite <- app_comm_cons.
    rewrite Hx; [|lia|apply ends_token_comma].
    cbn [mbind option_bind]. rewrite skip_ws_head by done.
    change (Ascii.eqb "," ",") with true. cbv iota.
    rewrite IH; [done|done|lia].
Qed.

Lemma wf_arr l : wf (JArr l) ↔ Forall (λ x, wf x) l.
Proof. simpl. by rewrite forallb_True. Qed.

Lemma wf_obj o : wf (JObj o) ↔ NoDup o.*1 ∧ Forall (λ kv, wf kv.2) o.
Proof.
  simpl. rewrite andb_True, bool_decide_spec, forallb_True. done.
Qed.

Lemma encode_roundtrips v : wf v → roundtrips v.
Proof.
  induction v as [|b|n|s|l IH|o IH] using Json_induction; intros Hwf fuel r Hfuel Hr.
  - destruct fuel as [|fuel]; [simpl in Hfuel; lia|]. reflexivity.
  - destruct fuel as [|fuel]; [destruct b; simpl in Hfuel; lia|].
    destruct b; reflexivity.
  - destruct (number_text_head n) as (c & tl & Heq & Hc).
    simpl in *. destruct fuel as [|fuel]; [rewrite Heq in Hfuel; simpl in Hfuel; lia|].
    pose proof (parse_number_text n r Hr) as Hn.
    rewrite Heq in Hn |- *. rewrite <- app_comm_cons in *.
    rewrite parse_value_number by done. by rewrite Hn.
  - destruct fuel as [|fuel]; [simpl in Hfuel; lia|].
    cbn [encode]. rewrite quote_chars_app, parse_value_string.
    rewrite parse_string_escaped. simpl. unfold chars.
    by rewrite String.string_of_list_ascii_of_string.
  - destruct fuel as [|fuel]; [simpl in Hfuel; lia|].
    cbn [encode] in *. rewrite <- app_comm_cons, <- app_assoc.
    rewrite parse_value_array. simpl app.
    destruct l as [|x l]; [reflexivity|].
    apply wf_arr in Hwf.
    assert (Forall roundtrips (x :: l)) as Hall.
    { rewrite Forall_forall in IH. rewrite Forall_forall in Hwf.
      apply Forall_forall. intros y Hy. apply IH; [done|]. by apply Hwf. }
    pose proof (elements_roundtrip (x :: l) ltac:(done) Hall fuel r) as He.
    destruct (encode_head x) as (c & tl & Heq & Hc).
    assert (∃ tl', join "," (map encode (x :: l)) ++ "]"%char :: r = c :: tl')
      as [tl' Htl].
    { destruct l; simpl; rewrite Heq; by eexists. }
    remember (join "," (map encode (x :: l))) as J eqn:HJ.
    simpl length in Hfuel. rewrite length_app in Hfuel. simpl in Hfuel.
    rewrite He by lia. rewrite Htl.
    rewrite skip_ws_head by by apply starts_value_not_ws.
    destruct (starts_value_not_close c Hc) as [-> _]. reflexivity.
  - destruct fuel as [|fuel]; [simpl in Hfuel; lia|].
    cbn [encode] in *. rewrite <- app_comm_cons, <- app_assoc.
    rewrite parse_value_object. simpl app.
    destruct o as [|[k x] o]; [reflexivity|].
    apply wf_obj in Hwf as [Hnd Hwf].
    assert (Forall (λ kv, roundtrips kv.2) ((k, x) :: o)) as Hall.
    { rewrite Forall_forall in IH. rewrite Forall_forall in Hwf.
      apply Forall_forall. intros y Hy. apply IH; [done|]. by apply Hwf. }
    pose proof (members_roundtrip ((k, x) :: o) ltac:(done) Hall fuel r) as He.
    assert (∃ tl', join "," (map (encode_member encode) ((k, x) :: o))
                     ++ "}"%char :: r = dquote :: tl') as [tl' Htl].
    { destruct o; simpl; by eexists. }
    remember (join "," (map (encode_member encode) ((k, x) :: o))) as J eqn:HJ.
    simpl length in Hfuel. rewrite length_app in Hfuel. simpl in Hfuel.
    rewrite He by lia. rewrite Htl.
    rewrite skip_ws_head by done.
    change (Ascii.eqb dquote "}") with false. cbv iota.
    cbn [mbind option_bind]. by rewrite obj_assign_nil.
Qed.

Theorem parse_stringify v : wf v → parse (stringify v) = Some v.
Proof.
  intros Hwf. unfold parse, stringify, chars.
  rewrite String.list_ascii_of_string_of_list_ascii.
  rewrite <- (app_nil_r (encode v)) at 2.
  rewrite (encode_roundtrips v Hwf); [done|lia|done].
Qed.

Lemma obj_set_keys k v o :
  (obj_set k v o).*1 = if bool_decide (k ∈ o.*1) then o.*1 else o.*1 ++ [k].
Proof.
  induction o as [|[k' v'] o IH]; [done|]. csimpl.
  destruct (decide (k = k')) as [->|Hne]; csimpl.
  - rewrite bool_decide_eq_true_2; [done|left].
  - rewrite IH. destruct (bool_decide_reflect (k ∈ o.*1)) as [Hin|Hin].
    + rewrite bool_decide_eq_true_2; [done|by right].
    + rewrite bool_decide_eq_false_2; [done|].
      intros [?|?]%elem_of_cons; done.
Qed.

Lemma obj_set_NoDup k v o : NoDup o.*1 → NoDup (obj_set k v o).*1.
Proof.
  intros Hnd. rewrite obj_set_keys.
  destruct (bool_decide_reflect (k ∈ o.*1)) as [Hin|Hin]; [done|].
  apply NoDup_app. split_and!; [done| |apply NoDup_singleton].
  intros x Hx ->%list_elem_of_singleton. done.
Qed.

Lemma obj_set_Forall (P : Json → Prop) k v o :
  P v → Forall (λ kv, P kv.2) o → Forall (λ kv, P kv.2) (obj_set k v o).
Proof.
  intros Hv. induction 1 as [|[k' v'] o Hx Hall IH]; simpl.
  - by constructor.
  - destruct (decide (k = k')); constructor; done.
Qed.

Lemma obj_assign_NoDup src : ∀ o, NoDup o.*1 → NoDup (obj_assign o src).*1.
Proof.
  unfold obj_assign. induction src as [|[k v] src IH]; intros o Hnd; [done|].
  simpl. apply IH. by apply obj_set_NoDup.
Qed.

Lemma obj_assign_Forall (P : Json → Prop) src : ∀ o,
  Forall (λ kv, P kv.2) o → Forall (λ kv, P kv.2) src →
  Forall (λ kv, P kv.2) (obj_assign o src).
Proof.
  unfold obj_assign. induction src as [|[k v] src IH]; intros o Ho Hsrc; [done|].
  apply Forall_cons in Hsrc as [Hv Hsrc].
  simpl. apply IH; [|done]. by apply obj_set_Forall.
Qed.

Lemma wf_obj_assign o src :
  wf (JObj o) → Forall (λ kv, wf kv.2) src → wf (JObj (obj_assign o src)).
Proof.
  rewrite !wf_obj. intros [Hnd Ho] Hsrc. split.
  - by apply obj_assign_NoDup.
  - by apply (obj_assign_Forall (λ v, wf v)).
Qed.

Ltac option_steps :=
  repeat match goal with
  | H : (?m ≫= _) = Some _ |- _ =>
      let E := fresh "E" in
      first [destruct m as [[? ?]|] eqn:E | destruct m eqn:E];
      cbn [mbind option_bind] in H; [|discriminate H]
  | H : match ?x with _ => _ end = Some _ |- _ =>
      let E := fresh "E" in destruct x eqn:E; try discriminate H
  | H : Some _ = Some _ |- _ => injection H as ?; subst
  end.

Lemma parse_value_wf fuel :
  (∀ s v r, parse_value fuel s = Some (v, r) → wf v)
  ∧ (∀ s l r, parse_elements fuel s = Some (l, r) → Forall (λ x, wf x) l)
  ∧ (∀ s ms r, parse_members fuel s = Some (ms, r) → Forall (λ kv, wf kv.2) ms).
Proof.
  induction fuel as [|fuel (IHv & IHe & IHm)]; [done|].
  split_and!.
  - intros s v r H. cbn [parse_value] in H. option_steps; try done.
    + apply wf_arr. eauto.
    + apply wf_obj_assign; [done|]. eauto.
  - intros s l r H. cbn [parse_elements] in H. option_steps.
    + constructor; eauto.
    + constructor; eauto.
  - intros s ms r H. cbn [parse_members] in H. option_steps.
    + constructor; simpl; eauto.
    + constructor; simpl; eauto.
Qed.

Theorem parse_wf text v : parse text = Some v → wf v.
Proof.
  unfold parse. intros H. option_steps.
  eapply parse_value_wf; eauto.
Qed.

(** The codec on a few texts. *)
Example stringify_flat :
  stringify (JArr [JNum 0; JNum (-12); JNum 305; JNull; JBool true])
  = "[0,-12,305,null,true]"%string.
Proof. reflexivity. Qed.

Example parse_spaced :
  parse " [ 1 , [ true , null ] , -0 ] "
  = Some (JArr [JNum 1; JArr [JBool true; JNull]; JNum 0]).
Proof. reflexivity. Qed.

Example parse_rejects :
  parse "01" = None ∧ parse "[1,]" = None ∧ parse "" = None
  ∧ parse "undefined" = None ∧ parse "1 2" = None.
Proof. repeat split. Qed.

(** A repeated key keeps its first place and takes its last value. *)
Example parse_repeated_key :
  parse (stringify (JObj [("a"%string, JNum 1); ("b"%string, JNum 2);
                          ("a"%string, JNum 3)]))
  = Some (JObj [("a"%string, JNum 3); ("b"%string, JNum 2)]).
Proof. reflexivity. Qed.

(** ** The storage wrapper: lookups *)

Import localStorage.

Lemma getItem_eq key w :
  _getItem key w =
  if negb (has_window w) then
    Ret (failure (Some WINDOW_IS_UNDEFINED) [("key"%string, Some (JStr key))], w)
  else if bool_decide (key = ""%string) then
    Ret (failure (Some NO_KEY) [("key"%string, Some (JStr key))], w)
  else if negb (text_truthy (storage w !! key)) then
    Ret (failure (Some NOT_ASSOCIATED) [("key"%string, Some (JStr key))], w)
  else
    match JSON.parse (default ""%string (storage w !! key)) with
    | Some res => Ret (success_with [("key"%string, Some (JStr key))] res, w)
    | None => Throw SyntaxError
    end.
Proof.
  unfold _getItem, mbind, LS_bind, window_is_undefined, getItem, lift, JSON_parse.
  destruct (has_window w); [|done]. simpl.
  destruct (bool_decide (key = ""%string)); [done|].
  destruct (text_truthy (storage w !! key)); [|done]. simpl.
  by destruct (JSON.parse _).
Qed.

Lemma parse_empty : JSON.parse "" = None.
Proof. reflexivity. Qed.

Lemma getItem_holds w k v :
  holds w k v →
  _getItem k w = Ret (success_with [("key"%string, Some (JStr k))] v, w).
Proof.
  intros (Hw & Hk & text & Htext & Hparse). rewrite getItem_eq, Hw, Htext.
  rewrite bool_decide_eq_false_2 by done. simpl.
  destruct (bool_decide_reflect (text = ""%string)) as [->|_];
    [by rewrite parse_empty in Hparse|].
  simpl. by rewrite Hparse.
Qed.

Lemma getArray_eq key w :
  _getArray key w =
  match _getItem key w with
  | Throw e => Throw e
  | Ret (oldArray, w') =>
      if error_truthy (error oldArray) then
        Ret ({| lookup_error := error oldArray; lookup_result := null |}, w')
      else if negb (array._isArray (result oldArray)) then
        Ret ({| lookup_error := Some NOT_ARRAY_TYPE; lookup_result := null |}, w')
      else if negb (truthy (result oldArray)) then
        Ret ({| lookup_error := Some ARRAY_NULL; lookup_result := null |}, w')
      else
        Ret ({| lookup_error := None; lookup_result := result oldArray |}, w')
  end.
Proof.
  unfold _getArray, mbind, LS_bind. destruct (_getItem key w) as [|[r w']]; [done|].
  by repeat case_match.
Qed.

Lemma error_truthy_Some e : error_truthy (Some e) = true.
Proof. by destruct e. Qed.

(** What [_getArray] can answer. *)
Lemma getArray_cases key w :
  (∃ e, _getArray key w = Throw e ∧ _getItem key w = Throw e)
  ∨ (∃ e, _getArray key w
          = Ret ({| lookup_error := Some e; lookup_result := null |}, w)
        ∧ e ≠ ARRAY_NULL
        ∧ (e = NOT_ARRAY_TYPE → ∃ v, holds w key v ∧ ¬ is_array v)
        ∧ (e ≠ NOT_ARRAY_TYPE → ¬ ∃ v, holds w key v))
  ∨ (∃ l, _getArray key w
          = Ret ({| lookup_error := None; lookup_result := Some (JArr l) |}, w)
        ∧ holds w key (JArr l)).
Proof.
  rewrite getArray_eq, getItem_eq.
  destruct (has_window w) eqn:Hw; simpl.
  2:{ right; left. eexists. split_and!; [done..| |]; [done|].
      intros _ (v & Hv & _). congruence. }
  destruct (bool_decide_reflect (key = ""%string)) as [Hk|Hk]; simpl.
  { right; left. eexists. split_and!; [done..| |]; [done|].
    intros _ (v & _ & Hv & _). done. }
  destruct (storage w !! key) as [text|] eqn:Htext; simpl.
  2:{ right; left. eexists. split_and!; [done..| |]; [done|].
      intros _ (v & _ & _ & t & Ht & _). congruence. }
  destruct (bool_decide_reflect (text = ""%string)) as [->|Hne]; simpl.
  { right; left. eexists. split_and!; [done..| |]; [done|].
    intros _ (v & _ & _ & t & Ht & Hp). rewrite Htext in Ht.
    injection Ht as <-. by rewrite parse_empty in Hp. }
  destruct (JSON.parse text) as [v|] eqn:Hp; [|left; by eexists].
  assert (holds w key v) as Hh by (split_and!; [done..|by eexists]).
  simpl. destruct v as [| | | |l|];
    try (right; left; eexists; simpl; split_and!; [done..| |]; [|done];
         intros _; eexists; split; [done|]; by intros [? ?]).
  right; right. simpl. by eexists.
Qed.

Ltac ls_unfold :=
  unfold mbind, LS_bind, mret, LS_ret, window_is_undefined, getItem, setItem,
    clear, lift in *.

Lemma envelope_ok_failure e vars : envelope_ok (failure (Some e) vars).
Proof. split; [split; done|done]. Qed.
Lemma envelope_ok_success vars : envelope_ok (success vars).
Proof. split; [split; done|done]. Qed.
Lemma envelope_ok_success_with vars res : envelope_ok (success_with vars res).
Proof. split; [split; done|done]. Qed.

Create HintDb envelope.
#[local] Hint Resolve envelope_ok_failure envelope_ok_success
  envelope_ok_success_with : envelope.

Lemma getItem_envelope key w r w' :
  _getItem key w = Ret (r, w') → envelope_ok r ∧ w' = w.
Proof.
  rewrite getItem_eq. intros H.
  repeat (case_match; simplify_eq); auto with envelope.
Qed.

Lemma getItem_error key w r w' :
  _getItem key w = Ret (r, w') → error_truthy (error r) = false → error r = None.
Proof.
  rewrite getItem_eq. intros H.
  repeat (case_match; simplify_eq); done.
Qed.

Ltac with_array key w :=
  destruct (getArray_cases key w)
    as [(?e & ?Hga & _)|[(?e & ?Hga & _)|(?l & ?Hga & _)]];
  rewrite Hga in *; clear Hga; cbn [lookup_error lookup_result] in *.

Lemma run_envelope call w r w' : run call w = Ret (r, w') → envelope_ok r.
Proof.
  destruct call as [key d|key|key item|key item|key id|key item|key id|key|];
    unfold run.
  - unfold _initializeStorage. ls_unfold.
    destruct (has_window w); simpl; [|intros; simplify_eq; auto with envelope].
    destruct (strict_eq d undefined); [intros; simplify_eq; auto with envelope|].
    destruct (_getItem key w) as [|[got w1]] eqn:Hget; [done|].
    destruct (error_truthy (error got)) eqn:Herr; simpl.
    + destruct (error got) as [e|] eqn:He; [|done].
      repeat case_match; intros; simplify_eq; auto with envelope.
    + repeat case_match; intros; simplify_eq; auto with envelope.
  - intros H. by apply getItem_envelope in H as [? _].
  - unfold _setItem. ls_unfold.
    repeat case_match; intros; simplify_eq; auto with envelope.
  - unfold _pushItem. ls_unfold.
    destruct (has_window w); simpl; [|intros; simplify_eq; auto with envelope].
    with_array key w; [done|rewrite error_truthy_Some; cbn [orb]|];
      repeat case_match; intros; simplify_eq; auto with envelope.
  - unfold _removeItem. ls_unfold.
    destruct (has_window w); simpl; [|intros; simplify_eq; auto with envelope].
    with_array key w; [done|rewrite error_truthy_Some; cbn [orb]|];
      repeat case_match; intros; simplify_eq; auto with envelope.
  - unfold _updateItem. ls_unfold.
    destruct (has_window w); simpl; [|intros; simplify_eq; auto with envelope].
    with_array key w; [done|rewrite error_truthy_Some; cbn [orb]|];
      repeat case_match; intros; simplify_eq; auto with envelope.
  - unfold _findItemById. ls_unfold.
    destruct (has_window w); simpl; [|intros; simplify_eq; auto with envelope].
    with_array key w; [done|rewrite error_truthy_Some; cbn [orb]|];
      repeat case_match; intros; simplify_eq; auto with envelope.
  - unfold _clear. ls_unfold.
    destruct (has_window w); simpl; [|intros; simplify_eq; auto with envelope].
    destruct (_getItem key w) as [|[got w1]] eqn:Hget; [done|].
    destruct (error_truthy (error got)) eqn:Herr; simpl.
    + destruct (error got) as [e|] eqn:He; [|done].
      intros; simplify_eq; auto with envelope.
    + intros; simplify_eq; auto with envelope.
  - unfold _clearAll. ls_unfold.
    destruct (has_window w); simpl; intros; simplify_eq; split; done.
Qed.

Lemma get_prop_not_null a k : a ≠ JNull → get_prop (Some a) k = Ret (field (Some a) k).
Proof. unfold field. by destruct a. Qed.

Lemma get_prop_truthy v k : truthy v = true → get_prop v k = Ret (field v k).
Proof. unfold field. by destruct v as [[]|]. Qed.

Lemma filter_exc_ret f g l :
  Forall (λ a, f a = Ret (g a)) l → filter_exc f l = Ret (List.filter g l).
Proof.
  induction 1 as [|a l Ha Hl IH]; [done|]. simpl. rewrite Ha, IH. simpl.
  by destruct (g a).
Qed.

Lemma map_exc_ret {A B} (f : A → Exc B) g l :
  Forall (λ a, f a = Ret (g a)) l → map_exc f l = Ret (map g l).
Proof.
  induction 1 as [|a l Ha Hl IH]; [done|]. simpl. by rewrite Ha, IH.
Qed.

Lemma find_exc_ret f g l :
  Forall (λ a, f a = Ret (g a)) l → find_exc f l = Ret (List.find g l).
Proof.
  induction 1 as [|a l Ha Hl IH]; [done|]. simpl. rewrite Ha. simpl.
  by destruct (g a).
Qed.

Lemma removeArray_falsy arr id :
  truthy id = false → array._removeArray arr id = Ret JNull.
Proof.
  intros Hid. unfold array._removeArray. rewrite Hid. simpl.
  by rewrite !orb_true_r.
Qed.

Lemma removeArray_records l id :
  truthy id = true → Forall (λ a, a ≠ JNull) l →
  array._removeArray (Some (JArr l)) id
  = Ret (JArr (List.filter (λ a, negb (strict_eq (field (Some a) "id") id)) l)).
Proof.
  intros Hid Hl. unfold array._removeArray. rewrite Hid. simpl.
  rewrite (filter_exc_ret _ (λ a, negb (strict_eq (field (Some a) "id") id))); [done|].
  eapply Forall_impl; [exact Hl|]. intros a Ha. cbv beta in Ha |- *.
  unfold field. destruct a; done.
Qed.

Lemma updateArray_falsy arr item :
  truthy item = false → array._updateArray arr item = Ret JNull.
Proof.
  intros Hid. unfold array._updateArray. rewrite Hid. simpl.
  by rewrite !orb_true_r.
Qed.

Lemma updateArray_records l item :
  truthy item = true → Forall (λ a, a ≠ JNull) l →
  array._updateArray (Some (JArr l)) item
  = Ret (JArr (map (λ a, if strict_eq (field (Some a) "id") (field item "id")
                         then spread2 (Some a) item else a) l)).
Proof.
  intros Hitem Hl. unfold array._updateArray. rewrite Hitem. simpl.
  rewrite (map_exc_ret _ (λ a, if strict_eq (field (Some a) "id") (field item "id")
                               then spread2 (Some a) item else a)); [done|].
  eapply Forall_impl; [exact Hl|]. intros a Ha. cbv beta in Ha |- *.
  rewrite (get_prop_truthy item) by done. unfold field at 1. destruct a; done.
Qed.

Lemma findById_falsy arr id :
  truthy id = false → array._findById arr id = Ret JNull.
Proof.
  intros Hid. unfold array._findById. rewrite Hid. simpl.
  by rewrite !orb_true_r.
Qed.

Lemma findById_records l id :
  truthy id = true → Forall (λ a, a ≠ JNull) l →
  array._findById (Some (JArr l)) id
  = Ret (default JNull (List.find (λ a, strict_eq (field (Some a) "id") id) l)).
Proof.
  intros Hid Hl. unfold array._findById. rewrite Hid. simpl.
  rewrite (find_exc_ret _ (λ a, strict_eq (field (Some a) "id") id)).
  2:{ eapply Forall_impl; [exact Hl|]. intros a Ha. cbv beta in Ha |- *.
      unfold field. destruct a; done. }
  simpl. destruct (List.find _ l) as [x|] eqn:Hfind; [|done].
  apply find_some in Hfind as [_ Hx]. cbn [default].
  assert (truthy (Some x) = true) as ->; [|done].
  destruct x; try done; by destruct id as [[]|].
Qed.

Lemma helpers_return l x :
  Forall (λ a, a ≠ JNull) l →
  (∃ r, array._removeArray (Some (JArr l)) x = Ret r)
  ∧ (∃ r, array._updateArray (Some (JArr l)) x = Ret r)
  ∧ (∃ r, array._findById (Some (JArr l)) x = Ret r).
Proof.
  intros Hl. destruct (truthy x) eqn:Hx.
  - rewrite removeArray_records, updateArray_records, findById_records by done.
    split_and!; eauto.
  - rewrite removeArray_falsy, updateArray_falsy, findById_falsy by done.
    split_and!; eauto.
Qed.

Lemma getItem_returns key w :
  sane_store w → ∃ r, _getItem key w = Ret (r, w).
Proof.
  intros Hs. rewrite getItem_eq.
  destruct (has_window w); simpl; [|eauto].
  destruct (bool_decide (key = ""%string)); [eauto|].
  destruct (storage w !! key) as [text|] eqn:Ht; simpl; [|eauto].
  destruct (bool_decide_reflect (text = ""%string)) as [|Hne]; simpl; [eauto|].
  destruct (Hs _ _ Ht Hne) as (v & -> & _). eauto.
Qed.

Lemma holds_sane w k l :
  sane_store w → holds w k (JArr l) → Forall (λ a, a ≠ JNull) l.
Proof.
  intros Hs (_ & _ & text & Ht & Hp).
  destruct (Hs _ _ Ht) as (v & Hv & Hl).
  - intros ->. by rewrite parse_empty in Hp.
  - rewrite Hp in Hv. injection Hv as <-. by apply Hl.
Qed.

Lemma run_returns call w : sane_store w → ∃ r w', run call w = Ret (r, w').
Proof.
  intros Hs.
  assert (∀ key, (∃ e, _getItem key w = Throw e) → False) as Hget.
  { intros key [e He]. destruct (getItem_returns key w Hs) as [r Hr]. congruence. }
  destruct call as [key d|key|key item|key item|key id|key item|key id|key|];
    unfold run.
  - unfold _initializeStorage. ls_unfold.
    destruct (has_window w); simpl; [|eauto].
    destruct (strict_eq d undefined); [eauto|].
    destruct (getItem_returns key w Hs) as [r ->].
    repeat case_match; eauto.
  - destruct (getItem_returns key w Hs) as [r ->]. eauto.
  - unfold _setItem. ls_unfold. repeat case_match; eauto.
  - unfold _pushItem. ls_unfold.
    destruct (has_window w); simpl; [|eauto].
    destruct (getArray_cases key w)
      as [(e & _ & He)|[(e & -> & _)|(l & -> & Hl)]];
      [destruct (Hget key); eauto|..]; repeat case_match; eauto.
  - unfold _removeItem. ls_unfold.
    destruct (has_window w); simpl; [|eauto].
    destruct (getArray_cases key w)
      as [(e & _ & He)|[(e & -> & _)|(l & -> & Hl)]];
      [destruct (Hget key); eauto|..]; cbn [lookup_error lookup_result].
    + rewrite error_truthy_Some. simpl. eauto.
    + destruct (helpers_return l id (holds_sane _ _ _ Hs Hl)) as ([r ->] & _).
      simpl. eauto.
  - unfold _updateItem. ls_unfold.
    destruct (has_window w); simpl; [|eauto].
    destruct (getArray_cases key w)
      as [(e & _ & He)|[(e & -> & _)|(l & -> & Hl)]];
      [destruct (Hget key); eauto|..]; cbn [lookup_error lookup_result].
    + rewrite error_truthy_Some. simpl. eauto.
    + destruct (helpers_return l item (holds_sane _ _ _ Hs Hl)) as (_ & [r ->] & _).
      simpl. repeat case_match; eauto.
  - unfold _findItemById. ls_unfold.
    destruct (has_window w); simpl; [|eauto].
    destruct (getArray_cases key w)
      as [(e & _ & He)|[(e & -> & _)|(l & -> & Hl)]];
      [destruct (Hget key); eauto|..]; cbn [lookup_error lookup_result].
    + rewrite error_truthy_Some. simpl. eauto.
    + destruct (helpers_return l id (holds_sane _ _ _ Hs Hl)) as (_ & _ & [r ->]).
      simpl. repeat case_match; eauto.
  - unfold _clear. ls_unfold.
    destruct (has_window w); simpl; [|eauto].
    destruct (getItem_returns key w Hs) as [r ->].
    repeat case_match; eauto.
  - unfold _clearAll. ls_unfold. repeat case_match; eauto.
Qed.

(** ** The storage wrapper: operations *)

Lemma holds_insert w k v :
  has_window w = true → k ≠ ""%string → wf v →
  holds {| has_window := has_window w;
           storage := <[k := JSON.stringify v]> (storage w) |} k v.
Proof.
  intros Hw Hk Hv. split_and!; [done..|].
  exists (JSON.stringify v). simpl. rewrite lookup_insert_eq.
  split; [done|]. by apply parse_stringify.
Qed.

(** C1, evaluated at a falsy default value: after a successful
    [initialize("k", 0)] the entry holds the text [0], and a second
    [initialize] with the same key succeeds and overwrites it instead of
    failing with [ALREADY_EXISTS]. *)
Theorem C1_initialize_twice_zero :
  _initializeStorage "k" (Some (JNum 0)) (browser [])
  = Ret (success [("key"%string, Some (JStr "k"));
                  ("defaultValue"%string, Some (JNum 0))],
         browser [("k"%string, "0"%string)])
  ∧ _initializeStorage "k" (Some (JNum 7)) (browser [("k"%string, "0"%string)])
    = Ret (success [("key"%string, Some (JStr "k"));
                    ("defaultValue"%string, Some (JNum 7))],
           browser [("k"%string, "7"%string)]).
Proof. split; vm_compute; reflexivity. Qed.

(** The same with the empty string as default value. *)
Lemma initialize_twice_empty_string :
  _initializeStorage "k" (Some (JStr "")) (browser [])
  = Ret (success [("key"%string, Some (JStr "k"));
                  ("defaultValue"%string, Some (JStr ""))],
         browser [("k"%string, JSON.stringify (JStr ""))])
  ∧ ∃ w2 vars,
      _initializeStorage "k" (Some (JStr ""))
        (browser [("k"%string, JSON.stringify (JStr ""))])
      = Ret (success vars, w2).
Proof. split; [|eexists _, _]; vm_compute; reflexivity. Qed.

Lemma strict_eq_defined v : strict_eq (Some v) undefined = false.
Proof. by destruct v. Qed.

(** What the guard of [_initializeStorage] does cover: when the entry holds
    a truthy value, [null] or [false], the call fails with
    [ALREADY_EXISTS] and writes nothing. *)
Lemma initialize_existing w k v d :
  holds w k v → truthy (Some v) = true ∨ v = JNull ∨ v = JBool false →
  _initializeStorage k (Some d) w
  = Ret (failure (Some ALREADY_EXISTS)
           [("key"%string, Some (JStr k)); ("defaultValue"%string, Some d)], w).
Proof.
  intros Hh Hv. unfold _initializeStorage. ls_unfold.
  pose proof (getItem_holds _ _ _ Hh) as Hget.
  destruct Hh as (-> & _). cbn [negb]. rewrite strict_eq_defined.
  rewrite Hget. cbn [error result success_with error_truthy andb].
  destruct Hv as [->|[->| ->]]; done.
Qed.

(** Hence a second [initialize] fails whenever the first stored such a
    value. *)
Lemma initialize_twice w k d d' r w' :
  wf d → truthy (Some d) = true ∨ d = JNull ∨ d = JBool false →
  _initializeStorage k (Some d) w = Ret (r, w') → state r = true →
  _initializeStorage k (Some d') w'
  = Ret (failure (Some ALREADY_EXISTS)
           [("key"%string, Some (JStr k)); ("defaultValue"%string, Some d')], w').
Proof.
  intros Hwf Hd Hinit Hstate. apply initialize_existing with (v := d); [|done].
  unfold _initializeStorage in Hinit. ls_unfold.
  destruct (has_window w) eqn:Hw; cbn [negb] in Hinit; [|by simplify_eq].
  rewrite strict_eq_defined, getItem_eq, Hw in Hinit. simpl in Hinit.
  destruct (bool_decide_reflect (k = ""%string)) as [Hk|Hk];
    [simpl in Hinit; by simplify_eq|].
  assert (w' = {| has_window := has_window w;
                  storage := <[k := JSON.stringify d]> (storage w) |}) as ->.
  { repeat (case_match; simplify_eq; simpl in * ); try done. }
  apply holds_insert; done.
Qed.

(** ** C2 *)

(** C2: each of the nine public operations, whenever it returns, returns
    an envelope whose success flag is set exactly when no error code is
    present and which carries no result payload next to an error code;
    and on a sane store every operation does return. *)
Theorem C2_envelope_invariant call w :
  (∀ r w', run call w = Ret (r, w') → envelope_ok r)
  ∧ (sane_store w → ∃ r w', run call w = Ret (r, w')).
Proof.
  split.
  - intros r w'. apply run_envelope.
  - apply run_returns.
Qed.

Lemma sane_browser_nil : sane_store (browser []).
Proof. intros k text H. simpl in H. by rewrite lookup_empty in H. Qed.

Lemma C2_envelope_invariant_witness :
  ∃ r w', run (Push "users" (Some (JNum 1))) (browser []) = Ret (r, w')
          ∧ envelope_ok r.
Proof.
  destruct (C2_envelope_invariant (Push "users" (Some (JNum 1))) (browser []))
    as [Hinv Hret].
  destruct (Hret sane_browser_nil) as (r & w' & Hrun).
  exists r, w'. split; [exact Hrun|exact (Hinv r w' Hrun)].
Defined.

(** ** C7 *)

Lemma pushItem_failure_keeps_world k item w r w' :
  _pushItem k item w = Ret (r, w') → state r = false → w' = w.
Proof.
  unfold _pushItem. ls_unfold.
  destruct (has_window w); cbn [negb]; [|by intros; simplify_eq].
  with_array k w; [done|rewrite error_truthy_Some; cbn [orb]|];
    repeat case_match; intros; by simplify_eq.
Qed.

Lemma pushItem_not_sequence k item w :
  storage w !! k = None
  ∨ (∃ text v, storage w !! k = Some text ∧ JSON.parse text = Some v
               ∧ ¬ is_array v) →
  ∃ r, _pushItem k item w = Ret (r, w) ∧ state r = false.
Proof.
  intros Hk. unfold _pushItem. ls_unfold.
  destruct (has_window w) eqn:Hw; cbn [negb]; [|by eexists].
  destruct (getArray_cases k w)
    as [(e & Hga & Hget)|[(e & -> & _)|(l & -> & Hl)]].
  - exfalso. rewrite getItem_eq, Hw in Hget. simpl in Hget.
    destruct Hk as [Hk|(text & v & Hk & Hp & _)]; rewrite Hk in Hget;
      simpl in Hget; repeat (case_match; simplify_eq); congruence.
  - cbn [lookup_error lookup_result]. rewrite error_truthy_Some. by eexists.
  - exfalso. destruct Hl as (_ & _ & text & Ht & Hp).
    destruct Hk as [Hk|(text' & v & Hk & Hp' & Hv)]; [congruence|].
    apply Hv. exists l. congruence.
Qed.

(** C7: when the entry of [k] is absent, or holds a value that is not a
    sequence, [push] fails and the world is exactly what it was; moreover
    no failing [push] writes anything. *)
Theorem C7_push_failure_no_write k item w :
  (storage w !! k = None
   ∨ (∃ text v, storage w !! k = Some text ∧ JSON.parse text = Some v
                ∧ ¬ is_array v) →
   ∃ r, _pushItem k item w = Ret (r, w) ∧ state r = false)
  ∧ (∀ r w', _pushItem k item w = Ret (r, w') → state r = false → w' = w).
Proof.
  split.
  - apply pushItem_not_sequence.
  - intros r w'. apply pushItem_failure_keeps_world.
Qed.

Lemma C7_push_failure_no_write_witness :
  ∃ r, _pushItem "n" (Some (JNum 1)) (browser [("n"%string, "5"%string)])
       = Ret (r, browser [("n"%string, "5"%string)])
       ∧ state r = false.
Proof.
  apply (C7_push_failure_no_write "n" (Some (JNum 1))
           (browser [("n"%string, "5"%string)])).
  right. exists "5"%string, (JNum 5). split_and!.
  - vm_compute. reflexivity.
  - vm_compute. reflexivity.
  - intros [l Hl]. discriminate Hl.
Defined.

(** ** C9 and C3 *)

Lemma getArray_holds w k l :
  holds w k (JArr l) →
  _getArray k w
  = Ret ({| lookup_error := None; lookup_result := Some (JArr l) |}, w).
Proof. intros Hh. by rewrite getArray_eq, (getItem_holds _ _ _ Hh). Qed.

Lemma getArray_holds_other w k v :
  holds w k v → ¬ is_array v →
  _getArray k w
  = Ret ({| lookup_error := Some NOT_ARRAY_TYPE; lookup_result := null |}, w).
Proof.
  intros Hh Hv. rewrite getArray_eq, (getItem_holds _ _ _ Hh).
  destruct v; try done. destruct Hv. by eexists.
Qed.

(** C9: on a key holding a sequence, [removeById] with the empty string or
    the number zero as id reports success and replaces the entry by the
    text [null]: the sequence is lost. *)
Theorem C9_remove_falsy_id_stores_null w k l id :
  holds w k (JArr l) →
  id = Some (JStr "") ∨ id = Some (JNum 0) →
  ∃ w',
    _removeItem k id w
    = Ret (success [("key"%string, Some (JStr k)); ("id"%string, id)], w')
    ∧ storage w' = <[k := "null"%string]> (storage w)
    ∧ holds w' k JNull.
Proof.
  intros Hh Hid. pose proof (getArray_holds _ _ _ Hh) as Hga.
  destruct Hh as (Hw & Hk & Hh). unfold _removeItem. ls_unfold.
  rewrite Hw. cbn [negb]. rewrite Hga.
  cbn [lookup_error lookup_result error_truthy strict_eq null orb].
  rewrite removeArray_falsy by (by destruct Hid as [-> | ->]).
  cbn [lift]. eexists. split_and!; [done..|].
  apply (holds_insert w k JNull); done.
Qed.

Lemma C9_remove_falsy_id_stores_null_witness :
  ∃ w',
    _removeItem "users" (Some (JNum 0))
      (browser [("users"%string, JSON.stringify (JArr [JObj [("id"%string, JNum 1)]]))])
    = Ret (success [("key"%string, Some (JStr "users"));
                    ("id"%string, Some (JNum 0))], w')
    ∧ storage w'
      = <["users"%string := "null"%string]>
          (storage (browser [("users"%string,
                              JSON.stringify (JArr [JObj [("id"%string, JNum 1)]]))]))
    ∧ holds w' "users" JNull.
Proof.
  apply (C9_remove_falsy_id_stores_null _ "users" [JObj [("id"%string, JNum 1)]]).
  - split_and!; [reflexivity|discriminate|].
    eexists. split; vm_compute; reflexivity.
  - right. reflexivity.
Defined.

(** C3, evaluated at the id [0]: no element of the stored sequence has
    that id, [removeById] reports success, and the entry no longer holds
    the sequence but [null]. *)
Theorem C3_remove_absent_zero_id :
  _removeItem "users" (Some (JNum 0))
    (browser [("users"%string, JSON.stringify (JArr [JObj [("id"%string, JNum 1)]]))])
  = Ret (success [("key"%string, Some (JStr "users"));
                  ("id"%string, Some (JNum 0))],
         browser [("users"%string, "null"%string)]).
Proof. vm_compute. reflexivity. Qed.

Lemma filter_all_true {A} (g : A → bool) l :
  Forall (λ a, g a = true) l → List.filter g l = l.
Proof.
  induction 1 as [|a l Ha Hl IH]; [done|]. simpl. by rewrite Ha, IH.
Qed.

Lemma holds_wf w k v : holds w k v → wf v.
Proof. intros (_ & _ & text & _ & Hp). by apply parse_wf in Hp. Qed.

(** What does hold of [removeById]: with a truthy id that no element
    carries, on a sequence without [null] elements, the call succeeds and
    the key holds the same sequence afterwards. *)
Lemma remove_absent_truthy_id w k l id :
  holds w k (JArr l) → Forall (λ a, a ≠ JNull) l →
  truthy id = true →
  Forall (λ a, strict_eq (field (Some a) "id") id = false) l →
  ∃ w',
    _removeItem k id w
    = Ret (success [("key"%string, Some (JStr k)); ("id"%string, id)], w')
    ∧ holds w' k (JArr l).
Proof.
  intros Hh Hl Hid Hno. pose proof (getArray_holds _ _ _ Hh) as Hga.
  pose proof (holds_wf _ _ _ Hh) as Hwf.
  destruct Hh as (Hw & Hk & Hh). unfold _removeItem. ls_unfold.
  rewrite Hw. cbn [negb]. rewrite Hga.
  cbn [lookup_error lookup_result error_truthy strict_eq null orb].
  rewrite removeArray_records by done.
  rewrite filter_all_true.
  2:{ eapply Forall_impl; [exact Hno|]. intros a Ha. cbv beta in *. by rewrite Ha. }
  simpl. eexists. split; [done|]. by apply (holds_insert w k (JArr l)).
Qed.

(** ** C4 *)

(** The [ARRAY_NULL] branch of [_getArray] is never taken: a [null] value
    already fails the array test before it. *)
Lemma getArray_never_array_null key w r w' :
  _getArray key w = Ret (r, w') → lookup_error r ≠ Some ARRAY_NULL.
Proof.
  destruct (getArray_cases key w)
    as [(e & -> & _)|[(e & -> & Hne & _)|(l & -> & _)]];
    intros; simplify_eq; simpl; congruence.
Qed.

Ltac enter_op Hw Hga :=
  ls_unfold; rewrite Hw; cbn [negb]; rewrite Hga;
  cbn [lookup_error lookup_result error_truthy strict_eq null orb].

(** C4, as the code behaves: on a key whose entry deserialises to [null],
    each of [push], [removeById], [updateById] and [findById] fails, and
    the error code is [NOT_ARRAY_TYPE], not [ARRAY_NULL]. *)
Theorem C4_null_entry_reports_not_array_type w k x :
  holds w k JNull →
  _pushItem k x w
  = Ret (failure (Some NOT_ARRAY_TYPE)
           [("key"%string, Some (JStr k)); ("item"%string, x)], w)
  ∧ _removeItem k x w
    = Ret (failure (Some NOT_ARRAY_TYPE)
             [("key"%string, Some (JStr k)); ("id"%string, x)], w)
  ∧ _updateItem k x w
    = Ret (failure (Some NOT_ARRAY_TYPE)
             [("key"%string, Some (JStr k)); ("updatedItem"%string, x)], w)
  ∧ _findItemById k x w
    = Ret (failure (Some NOT_ARRAY_TYPE)
             [("key"%string, Some (JStr k)); ("id"%string, x)], w).
Proof.
  intros Hh.
  assert (¬ is_array JNull) as Hna by (by intros [l Hl]).
  pose proof (getArray_holds_other _ _ _ Hh Hna) as Hga.
  destruct Hh as (Hw & _).
  split_and!.
  - unfold _pushItem. enter_op Hw Hga. reflexivity.
  - unfold _removeItem. enter_op Hw Hga. reflexivity.
  - unfold _updateItem. enter_op Hw Hga. reflexivity.
  - unfold _findItemById. enter_op Hw Hga. reflexivity.
Qed.

Lemma C4_null_entry_reports_not_array_type_witness :
  _pushItem "k" (Some (JNum 1)) (browser [("k"%string, "null"%string)])
  = Ret (failure (Some NOT_ARRAY_TYPE)
           [("key"%string, Some (JStr "k")); ("item"%string, Some (JNum 1))],
         browser [("k"%string, "null"%string)]).
Proof.
  apply (C4_null_entry_reports_not_array_type
           (browser [("k"%string, "null"%string)]) "k" (Some (JNum 1))).
  split_and!; [reflexivity|discriminate|].
  exists "null"%string. split; vm_compute; reflexivity.
Defined.

(** ** C6 *)

Lemma obj_get_set f k v o :
  obj_get f (obj_set k v o) = if decide (f = k) then Some v else obj_get f o.
Proof.
  induction o as [|[k' v'] o IH]; simpl.
  - by destruct (decide (f = k)).
  - destruct (decide (k = k')) as [->|Hne]; simpl.
    + by destruct (decide (f = k')).
    + rewrite IH. destruct (decide (f = k')) as [->|]; [|done].
      by rewrite decide_False.
Qed.

Lemma obj_get_None f (o : list (string * Json)) : f ∉ o.*1 → obj_get f o = None.
Proof.
  induction o as [|[k v] o IH]; [done|]. csimpl.
  intros [Hne Hin]%not_elem_of_cons. rewrite decide_False by done. auto.
Qed.

(** Fields after [Object.assign]-style copying: the source wins. *)
Lemma obj_get_assign f src : ∀ o,
  NoDup src.*1 →
  obj_get f (obj_assign o src)
  = match obj_get f src with
    | Some x => Some x
    | None => obj_get f o
    end.
Proof.
  unfold obj_assign. induction src as [|[k v] src IH]; intros o Hnd; [done|].
  csimpl in *. apply NoDup_cons in Hnd as [Hk Hnd].
  rewrite IH, obj_get_set by done.
  destruct (decide (f = k)) as [->|Hne]; [|done].
  by rewrite obj_get_None.
Qed.

Lemma spread2_records oa p :
  NoDup oa.*1 →
  spread2 (Some (JObj oa)) (Some (JObj p)) = JObj (obj_assign oa p).
Proof. intros Hnd. unfold spread2. simpl. by rewrite obj_assign_nil. Qed.

Lemma update_by_id_wf p l :
  wf (JObj p) → Forall (λ a, wf a) l → Forall is_record l →
  Forall (λ a, wf a) (update_by_id p l).
Proof.
  intros Hp Hl Hrec. unfold update_by_id. apply Forall_fmap.
  apply Forall_forall. intros a Ha. cbv beta. simpl.
  rewrite Forall_forall in Hl. rewrite Forall_forall in Hrec.
  destruct (Hrec a Ha) as [oa ->]. specialize (Hl _ Ha).
  destruct (strict_eq _ _); [|done].
  apply wf_obj_assign; [done|]. by apply wf_obj in Hp as [_ Hp].
Qed.

Lemma update_by_id_merged p a :
  wf (JObj p) → is_record a →
  if strict_eq (field (Some a) "id") (obj_get "id" p)
  then merged a p (JObj (obj_assign (own_props (Some a)) p))
  else True.
Proof.
  intros Hp [oa ->]. destruct (strict_eq _ _); [|done].
  split; [by eexists|]. intros f. unfold field. simpl.
  apply obj_get_assign. by apply wf_obj in Hp as [Hp _].
Qed.

(** C6: on a key holding a sequence of records, [updateById] with a
    partial record [p] succeeds and persists the sequence in which every
    element whose id equals the id of [p] is replaced by its shallow merge
    with [p] (the fields of [p] taking precedence) and every other element
    is unchanged. *)
Theorem C6_update_merges_fields w k l p :
  holds w k (JArr l) → Forall is_record l → wf (JObj p) →
  ∃ w',
    _updateItem k (Some (JObj p)) w
    = Ret (success [("key"%string, Some (JStr k));
                    ("updatedItem"%string, Some (JObj p))], w')
    ∧ holds w' k (JArr (update_by_id p l))
    ∧ length (update_by_id p l) = length l
    ∧ ∀ i a, l !! i = Some a →
        ∃ a', update_by_id p l !! i = Some a'
              ∧ if strict_eq (field (Some a) "id") (obj_get "id" p)
                then merged a p a' else a' = a.
Proof.
  intros Hh Hrec Hp. pose proof (getArray_holds _ _ _ Hh) as Hga.
  pose proof (holds_wf _ _ _ Hh) as Hwf. apply wf_arr in Hwf.
  destruct Hh as (Hw & Hk & Hh). unfold _updateItem. enter_op Hw Hga.
  rewrite updateArray_records; [|done|].
  2:{ eapply Forall_impl; [exact Hrec|]. by intros a [o ->]. }
  assert (map (λ a, if strict_eq (field (Some a) "id") (field (Some (JObj p)) "id")
                    then spread2 (Some a) (Some (JObj p)) else a) l
          = update_by_id p l) as ->.
  { unfold update_by_id. apply map_ext_in. intros a Ha%list_elem_of_In.
    rewrite Forall_forall in Hrec. destruct (Hrec a Ha) as [oa ->].
    change (field (Some (JObj p)) "id") with (obj_get "id" p).
    destruct (strict_eq _ _); [|done]. apply spread2_records.
    rewrite Forall_forall in Hwf. specialize (Hwf _ Ha).
    by apply wf_obj in Hwf as [? _]. }
  cbn [lift]. eexists. split_and!.
  - done.
  - apply (holds_insert w k (JArr (update_by_id p l))); [done..|].
    apply wf_arr. by apply update_by_id_wf.
  - unfold update_by_id. by rewrite length_map.
  - intros i a Hi. unfold update_by_id at 1. rewrite list_lookup_fmap, Hi.
    eexists. split; [done|]. simpl.
    assert (a ∈ l) as Ha by (by eapply list_elem_of_lookup_2).
    rewrite Forall_forall in Hrec.
    pose proof (update_by_id_merged p a Hp (Hrec a Ha)) as Hm.
    destruct (strict_eq _ _); done.
Qed.

Lemma C6_update_merges_fields_witness :
  ∃ w',
    _updateItem "users"
      (Some (JObj [("id"%string, JNum 1); ("name"%string, JStr "B")]))
      (browser [("users"%string,
                 JSON.stringify
                   (JArr [JObj [("id"%string, JNum 1); ("name"%string, JStr "A");
                                ("age"%string, JNum 5)]]))])
    = Ret (success
             [("key"%string, Some (JStr "users"));
              ("updatedItem"%string,
               Some (JObj [("id"%string, JNum 1); ("name"%string, JStr "B")]))],
           w')
    ∧ holds w' "users"
        (JArr [JObj [("id"%string, JNum 1); ("name"%string, JStr "B");
                     ("age"%string, JNum 5)]]).
Proof.
  destruct (C6_update_merges_fields
              (browser [("users"%string,
                 JSON.stringify
                   (JArr [JObj [("id"%string, JNum 1); ("name"%string, JStr "A");
                                ("age"%string, JNum 5)]]))])
              "users"
              [JObj [("id"%string, JNum 1); ("name"%string, JStr "A");
                     ("age"%string, JNum 5)]]
              [("id"%string, JNum 1); ("name"%string, JStr "B")])
    as (w' & Hrun & Hholds & _).
  - split_and!; [reflexivity|discriminate|].
    eexists. split; vm_compute; reflexivity.
  - repeat constructor. by eexists.
  - vm_compute. exact I.
  - exists w'. split; [exact Hrun|exact Hholds].
Defined.

(** ** The sort helpers *)

Lemma StronglySorted_lookup_lt {A} (R : relation A) l :
  StronglySorted R l →
  ∀ i j a b, (i < j)%nat → l !! i = Some a → l !! j = Some b → R a b.
Proof.
  induction 1 as [|x l Hl IH Hx]; intros i j a b Hij Hi Hj; [done|].
  destruct j as [|j]; [lia|]. destruct i as [|i]; simpl in *.
  - simplify_eq. rewrite Forall_forall in Hx. apply Hx.
    by eapply list_elem_of_lookup_2.
  - apply (IH i j); [lia|done..].
Qed.

(** One answer of the comparison links two values. *)
Lemma in_order_le cmp a b c : cmp a b = Ret c → c ≤ 0 → linked cmp a b.
Proof.
  intros Hc Hle. apply rtc_once. unfold in_order. rewrite Hc.
  apply orb_true_intro. left. by apply Z.leb_le.
Qed.

Lemma in_order_ge cmp a b c : cmp b a = Ret c → 0 ≤ c → linked cmp a b.
Proof.
  intros Hc Hle. apply rtc_once. unfold in_order. rewrite Hc.
  apply orb_true_intro. right. by apply Z.leb_le.
Qed.

(** The insertion sort is a comparison sort. *)
Section InsertionSort.
Variable cmp : Json → Json → Exc Z.

Lemma sort_insert_ordered_by x s : ∀ r,
  sort_insert cmp x s = Ret r → ordered_by cmp s →
  r ≡ₚ x :: s ∧ ordered_by cmp r
  ∧ ∀ z, linked cmp z x → HdRel (linked cmp) z s → HdRel (linked cmp) z r.
Proof.
  unfold ordered_by.
  induction s as [|y ys IH]; intros r Hr Hs; cbn [sort_insert] in Hr.
  - simplify_eq. split_and!; [done|by repeat constructor|by constructor].
  - destruct (cmp x y) as [|c] eqn:Hc; [done|]. cbn [mbind Exc_bind] in Hr.
    apply Sorted_inv in Hs as [Hys Hy].
    destruct (Z.leb_spec c 0) as [Hle|Hgt].
    + simplify_eq. split_and!; [done| |by constructor].
      constructor; [by constructor|]. constructor. by eapply in_order_le.
    + destruct (sort_insert cmp x ys) as [|r'] eqn:Hins; [done|].
      cbn [mbind Exc_bind] in Hr. simplify_eq.
      destruct (IH r' eq_refl Hys) as (Hperm & Hr' & Hhd).
      split_and!.
      * rewrite Hperm. apply Permutation_swap.
      * constructor; [done|]. apply Hhd; [|done].
        eapply in_order_ge; [done|lia].
      * intros z _ Hz. apply HdRel_inv in Hz. by constructor.
Qed.

Lemma js_sort_ordered_by l : ∀ r,
  js_sort cmp l = Ret r → r ≡ₚ l ∧ ordered_by cmp r.
Proof.
  induction l as [|x l IH]; intros r Hr; cbn [js_sort] in Hr.
  - simplify_eq. split; [done|constructor].
  - destruct (js_sort cmp l) as [|s] eqn:Hs; [done|].
    cbn [mbind Exc_bind] in Hr.
    destruct (IH s eq_refl) as [Hperm Hsorted].
    destruct (sort_insert_ordered_by x s r Hr Hsorted) as (Hperm' & Hr' & _).
    split; [by rewrite Hperm', Hperm|done].
Qed.

Lemma sort_insert_answers l x s :
  answers cmp l → x ∈ l → s ⊆ l → ∃ r, sort_insert cmp x s = Ret r.
Proof.
  intros Hans Hx. induction s as [|y ys IH]; intros Hs; cbn [sort_insert].
  - by eexists.
  - destruct (Hans x y) as [c ->]; [done|set_solver|].
    cbn [mbind Exc_bind]. destruct (c <=? 0); [by eexists|].
    destruct IH as [r ->]; [set_solver|]. by eexists.
Qed.

Lemma js_sort_answers l : answers cmp l → ∃ r, js_sort cmp l = Ret r.
Proof.
  intros Hans.
  assert (∀ l', l' ⊆ l → ∃ r, js_sort cmp l' = Ret r) as Hsub;
    [|by apply Hsub].
  induction l' as [|x l' IH]; intros Hl'; cbn [js_sort]; [by eexists|].
  destruct IH as [s Hs]; [set_solver|]. rewrite Hs. cbn [mbind Exc_bind].
  apply (sort_insert_answers l); [done|set_solver|].
  destruct (js_sort_ordered_by l' s Hs) as [Hperm _].
  intros z Hz. rewrite Hperm in Hz. set_solver.
Qed.
End InsertionSort.

Lemma js_sort_comparison_sort : comparison_sort js_sort.
Proof.
  intros cmp l. split; [apply js_sort_ordered_by|apply js_sort_answers].
Qed.

(** The merge sort is a comparison sort. *)
Section MergeSort.
Variable cmp : Json → Json → Exc Z.

Lemma merge_nil_r xs : merge cmp xs [] = Ret xs.
Proof. by destruct xs. Qed.

Lemma merge_cons x xs y ys :
  merge cmp (x :: xs) (y :: ys)
  = c ← cmp y x;
    if c <? 0 then r ← merge cmp (x :: xs) ys; Ret (y :: r)
    else r ← merge cmp xs (y :: ys); Ret (x :: r).
Proof. done. Qed.

Lemma merge_perm xs : ∀ ys r, merge cmp xs ys = Ret r → r ≡ₚ xs ++ ys.
Proof.
  induction xs as [|x xs IHx]; intros ys.
  { intros r Hr. destruct ys; cbn in Hr; by simplify_eq. }
  induction ys as [|y ys IHy]; intros r Hr.
  { rewrite merge_nil_r in Hr. simplify_eq. by rewrite app_nil_r. }
  rewrite merge_cons in Hr.
  destruct (cmp y x) as [|c]; [done|]. cbn [mbind Exc_bind] in Hr.
  destruct (c <? 0).
  - destruct (merge cmp (x :: xs) ys) as [|r'] eqn:Hm; [done|].
    cbn [mbind Exc_bind] in Hr. simplify_eq.
    rewrite (IHy r' eq_refl). by rewrite (Permutation_middle (x :: xs) ys y).
  - destruct (merge cmp xs (y :: ys)) as [|r'] eqn:Hm; [done|].
    cbn [mbind Exc_bind] in Hr. simplify_eq. by rewrite (IHx _ _ Hm).
Qed.

Lemma merge_ordered_by xs : ∀ ys r,
  merge cmp xs ys = Ret r → ordered_by cmp xs → ordered_by cmp ys →
  ordered_by cmp r
  ∧ ∀ z, HdRel (linked cmp) z xs → HdRel (linked cmp) z ys →
         HdRel (linked cmp) z r.
Proof.
  unfold ordered_by.
  induction xs as [|x xs IHx]; intros ys.
  { intros r Hr _ Hys. destruct ys; cbn in Hr; simplify_eq; by split_and!. }
  induction ys as [|y ys IHy]; intros r Hr Hxs Hys.
  { rewrite merge_nil_r in Hr. simplify_eq. by split_and!. }
  rewrite merge_cons in Hr.
  destruct (cmp y x) as [|c] eqn:Hc; [done|]. cbn [mbind Exc_bind] in Hr.
  pose proof Hxs as Hxs'. pose proof Hys as Hys'.
  apply Sorted_inv in Hxs' as [Hxs' Hx]. apply Sorted_inv in Hys' as [Hys' Hy].
  destruct (Z.ltb_spec c 0) as [Hlt|Hge].
  - destruct (merge cmp (x :: xs) ys) as [|r'] eqn:Hm; [done|].
    cbn [mbind Exc_bind] in Hr. simplify_eq.
    destruct (IHy r' eq_refl Hxs Hys') as (Hr' & Hhd).
    split.
    + constructor; [done|]. apply Hhd; [|done].
      constructor. eapply in_order_le; [done|lia].
    + intros z _ Hz. apply HdRel_inv in Hz. by constructor.
  - destruct (merge cmp xs (y :: ys)) as [|r'] eqn:Hm; [done|].
    cbn [mbind Exc_bind] in Hr. simplify_eq.
    destruct (IHx (y :: ys) r' Hm Hxs' Hys) as (Hr' & Hhd).
    split.
    + constructor; [done|]. apply Hhd; [done|].
      constructor. by eapply in_order_ge.
    + intros z Hz _. apply HdRel_inv in Hz. by constructor.
Qed.

Lemma merge_sort_fuel_perm fuel : ∀ l r,
  merge_sort_fuel fuel cmp l = Ret r → r ≡ₚ l.
Proof.
  induction fuel as [|fuel IH]; intros l r Hr; [cbn in Hr; by simplify_eq|].
  destruct l as [|x [|y l]]; [cbn in Hr; by simplify_eq..|].
  cbn [merge_sort_fuel] in Hr. remember (x :: y :: l) as l0 eqn:Hl0.
  set (n := (length l0 / 2)%nat) in *.
  destruct (merge_sort_fuel fuel cmp (take n l0)) as [|a] eqn:Ha; [done|].
  cbn [mbind Exc_bind] in Hr.
  destruct (merge_sort_fuel fuel cmp (drop n l0)) as [|b] eqn:Hb; [done|].
  cbn [mbind Exc_bind] in Hr.
  rewrite (merge_perm _ _ _ Hr), (IH _ _ Ha), (IH _ _ Hb). by rewrite take_drop.
Qed.

Lemma merge_sort_fuel_ordered_by fuel : ∀ l r,
  (length l ≤ fuel)%nat → merge_sort_fuel fuel cmp l = Ret r →
  ordered_by cmp r.
Proof.
  induction fuel as [|fuel IH]; intros l r Hlen Hr.
  { destruct l; [|simpl in Hlen; lia]. cbn in Hr. simplify_eq. constructor. }
  destruct l as [|x [|y l]].
  - cbn in Hr. simplify_eq. constructor.
  - cbn in Hr. simplify_eq. by repeat constructor.
  - cbn [merge_sort_fuel] in Hr.
    remember (x :: y :: l) as l0 eqn:Hl0.
    assert (2 ≤ length l0 ≤ S fuel)%nat as [Hlen2 Hlen'].
    { subst. simpl in *. lia. }
    set (n := (length l0 / 2)%nat) in *.
    assert (1 ≤ n ∧ n < length l0)%nat as [Hn1 Hn2].
    { subst n. split.
      - apply (Nat.div_le_lower_bound _ 2 1); lia.
      - apply Nat.div_lt; lia. }
    clearbody n.
    destruct (merge_sort_fuel fuel cmp (take n l0)) as [|a] eqn:Ha; [done|].
    cbn [mbind Exc_bind] in Hr.
    destruct (merge_sort_fuel fuel cmp (drop n l0)) as [|b] eqn:Hb; [done|].
    cbn [mbind Exc_bind] in Hr.
    pose proof (IH (take n l0) a ltac:(rewrite length_take; lia) Ha) as Hsa.
    pose proof (IH (drop n l0) b ltac:(rewrite length_drop; lia) Hb) as Hsb.
    by destruct (merge_ordered_by a b r Hr Hsa Hsb) as (Hs & _).
Qed.

Lemma merge_answers l xs : ∀ ys,
  answers cmp l → xs ⊆ l → ys ⊆ l → ∃ r, merge cmp xs ys = Ret r.
Proof.
  induction xs as [|x xs IHx]; intros ys Hans Hxs.
  { intros _. destruct ys; by eexists. }
  induction ys as [|y ys IHy]; intros Hys.
  { rewrite merge_nil_r. by eexists. }
  rewrite merge_cons.
  destruct (Hans y x) as [c ->]; [set_solver..|]. cbn [mbind Exc_bind].
  destruct (c <? 0).
  - destruct IHy as [r ->]; [set_solver|]. by eexists.
  - destruct (IHx (y :: ys)) as [r ->]; [done|set_solver|done|]. by eexists.
Qed.

Lemma merge_sort_fuel_answers l fuel : ∀ l',
  answers cmp l → l' ⊆ l → ∃ r, merge_sort_fuel fuel cmp l' = Ret r.
Proof.
  induction fuel as [|fuel IH]; intros l' Hans Hl'; [by eexists|].
  destruct l' as [|x [|y l']]; [by eexists..|].
  cbn [merge_sort_fuel]. remember (x :: y :: l') as l0 eqn:Hl0.
  set (n := (length l0 / 2)%nat).
  assert (take n l0 ⊆ l) as Ht.
  { intros z Hz. apply Hl'. by apply (subseteq_take n l0). }
  assert (drop n l0 ⊆ l) as Hd.
  { intros z Hz. apply Hl'. by apply (subseteq_drop n l0). }
  destruct (IH _ Hans Ht) as [a Ha]. destruct (IH _ Hans Hd) as [b Hb].
  rewrite Ha, Hb. cbn [mbind Exc_bind].
  apply (merge_answers l); [done|..].
  - intros z Hz. apply Ht. by rewrite <- (merge_sort_fuel_perm _ _ _ Ha).
  - intros z Hz. apply Hd. by rewrite <- (merge_sort_fuel_perm _ _ _ Hb).
Qed.
End MergeSort.

Lemma merge_sort_comparison_sort : comparison_sort merge_sort.
Proof.
  intros cmp l. unfold merge_sort. split.
  - intros r Hr. split.
    + by eapply merge_sort_fuel_perm.
    + by eapply merge_sort_fuel_ordered_by.
  - intros Hans. by apply (merge_sort_fuel_answers cmp l).
Qed.

(** The comparison functions of the sort helpers. *)
Section EngineCompare.
Context `{Locale}.
Variable inherits : Json → string → bool.

Lemma read_not_null a key :
  a ≠ JNull → ∃ f, engine.read inherits a key = Ret f.
Proof.
  intros Ha. unfold engine.read. rewrite get_prop_not_null by done.
  by eexists.
Qed.

(** They answer on elements that are not [null]. *)
Lemma compare_answers key a b :
  a ≠ JNull → b ≠ JNull →
  (∃ c, engine.ascending_compare inherits key a b = Ret c)
  ∧ (∃ c, engine.descending_compare inherits key a b = Ret c).
Proof.
  intros Ha Hb. unfold engine.ascending_compare, engine.descending_compare.
  destruct (read_not_null a key Ha) as [fa ->].
  destruct (read_not_null b key Hb) as [fb ->]. cbn [mbind Exc_bind].
  destruct (engine.nullish_field fa), (engine.nullish_field fb);
    cbn [andb]; [by eauto..|].
  destruct fa as [[[]|]|], fb as [[[]|]|]; by eauto.
Qed.

(** Both comparison functions answer a positive number on an element
    without a sort field and one with a proper sort field, and a negative
    number the other way round. *)
Lemma ascending_compare_sign key a b c :
  engine.ascending_compare inherits key a b = Ret c →
  (null_on inherits key a = true → null_on inherits key b = false → 0 < c)
  ∧ (null_on inherits key a = false → null_on inherits key b = true → c < 0).
Proof.
  unfold engine.ascending_compare, null_on.
  destruct (engine.read inherits a key) as [|fa]; [done|].
  destruct (engine.read inherits b key) as [|fb]; [done|].
  cbn [mbind Exc_bind]. intros Hc.
  split; intros Ha Hb; rewrite Ha, Hb in Hc; cbn in Hc; by simplify_eq.
Qed.

Lemma descending_compare_sign key a b c :
  engine.descending_compare inherits key a b = Ret c →
  (null_on inherits key a = true → null_on inherits key b = false → 0 < c)
  ∧ (null_on inherits key a = false → null_on inherits key b = true → c < 0).
Proof.
  unfold engine.descending_compare, null_on.
  destruct (engine.read inherits a key) as [|fa]; [done|].
  destruct (engine.read inherits b key) as [|fb]; [done|].
  cbn [mbind Exc_bind]. intros Hc.
  split; intros Ha Hb; rewrite Ha, Hb in Hc; cbn in Hc; by simplify_eq.
Qed.

(** Under a comparison with these signs, no chain leads from an element
    without a sort field to one with a proper sort field. *)
Lemma linked_null key cmp a b :
  (∀ a b c, cmp a b = Ret c →
     (null_on inherits key a = true → null_on inherits key b = false → 0 < c)
     ∧ (null_on inherits key a = false → null_on inherits key b = true → c < 0)) →
  linked cmp a b → null_on inherits key a = true → null_on inherits key b = true.
Proof.
  intros Hsign. induction 1 as [|u w v Huw _ IH]; [done|]. intros Hu.
  apply IH. destruct (null_on inherits key w) eqn:Hw; [done|]. exfalso.
  unfold in_order in Huw. apply orb_prop in Huw as [Huw|Huw].
  - destruct (cmp u w) as [|c] eqn:Hc; [done|]. apply Z.leb_le in Huw.
    destruct (Hsign u w c Hc) as [Hpos _]. specialize (Hpos Hu Hw). lia.
  - destruct (cmp w u) as [|c] eqn:Hc; [done|]. apply Z.leb_le in Huw.
    destruct (Hsign w u c Hc) as [_ Hneg]. specialize (Hneg Hw Hu). lia.
Qed.

(** So in an array every element of which is linked to the next, the
    elements without a sort field come last. *)
Lemma ordered_nulls_last key cmp r :
  (∀ a b c, cmp a b = Ret c →
     (null_on inherits key a = true → null_on inherits key b = false → 0 < c)
     ∧ (null_on inherits key a = false → null_on inherits key b = true → c < 0)) →
  ordered_by cmp r → nulls_last_on inherits key r.
Proof.
  intros Hsign Hs i j a b Hi Hj Ha Hb.
  destruct (decide (j < i)%nat) as [|Hge]; [done|]. exfalso.
  destruct (decide (i = j)) as [->|Hne]; [congruence|].
  apply Sorted_StronglySorted in Hs; [|apply _].
  pose proof (StronglySorted_lookup_lt _ _ Hs i j a b ltac:(lia) Hi Hj) as Hab.
  pose proof (linked_null key cmp a b Hsign Hab Ha). congruence.
Qed.

Variable sort : (Json → Json → Exc Z) → list Json → Exc (list Json).
Hypothesis sort_ok : comparison_sort sort.

(** C8: on every engine whose [sort] is a comparison sort, for every array
    and every sort key: whenever [ascendingOrder] or [descendingOrder]
    returns, the result is a rearrangement of the array in which every
    element whose sort field is [null] or [undefined] stands after every
    element whose sort field is a proper value; and both return on every
    array without [null] elements. *)
Theorem C8_nulls_last_on_every_engine (l : list Json) (key : string) :
  (∀ res, engine._ascendingOrder inherits sort (Some (JArr l)) key = Ret res →
     ∃ asc, res = JArr asc ∧ asc ≡ₚ l ∧ nulls_last_on inherits key asc)
  ∧ (∀ res, engine._descendingOrder inherits sort (Some (JArr l)) key = Ret res →
       ∃ desc, res = JArr desc ∧ desc ≡ₚ l ∧ nulls_last_on inherits key desc)
  ∧ (Forall (λ a, a ≠ JNull) l →
     ∃ asc desc,
       engine._ascendingOrder inherits sort (Some (JArr l)) key = Ret (JArr asc)
       ∧ engine._descendingOrder inherits sort (Some (JArr l)) key
         = Ret (JArr desc)).
Proof.
  unfold engine._ascendingOrder, engine._descendingOrder.
  cbn [truthy Array_isArray negb orb array.as_list].
  destruct (sort_ok (engine.ascending_compare inherits key) l) as [Hsa Hta].
  destruct (sort_ok (engine.descending_compare inherits key) l) as [Hsd Htd].
  split_and!.
  - intros res Hres.
    destruct (sort (engine.ascending_compare inherits key) l) as [|asc];
      [done|].
    cbn in Hres. simplify_eq. destruct (Hsa asc eq_refl) as [Hperm Hord].
    exists asc. split_and!; [done..|].
    by apply (ordered_nulls_last key _ asc (ascending_compare_sign key)).
  - intros res Hres.
    destruct (sort (engine.descending_compare inherits key) l) as [|desc];
      [done|].
    cbn in Hres. simplify_eq. destruct (Hsd desc eq_refl) as [Hperm Hord].
    exists desc. split_and!; [done..|].
    by apply (ordered_nulls_last key _ desc (descending_compare_sign key)).
  - intros Hl. rewrite Forall_forall in Hl.
    destruct Hta as [asc ->].
    { intros a b Ha%Hl Hb%Hl. apply (compare_answers key a b Ha Hb). }
    destruct Htd as [desc ->].
    { intros a b Ha%Hl Hb%Hl. apply (compare_answers key a b Ha Hb). }
    by exists asc, desc.
Qed.
End EngineCompare.

(** The example of the specification, [[{v:null},{v:2},{v:1}]] sorted by
    [v], on the engine that sorts by merging. *)
Lemma C8_nulls_last_on_every_engine_witness :
  ∃ asc desc,
    @engine._ascendingOrder c_locale es_inherits merge_sort
      (Some (JArr sample_rows)) "v" = Ret (JArr asc)
    ∧ @engine._descendingOrder c_locale es_inherits merge_sort
        (Some (JArr sample_rows)) "v" = Ret (JArr desc)
    ∧ nulls_last_on es_inherits "v" asc ∧ nulls_last_on es_inherits "v" desc.
Proof.
  destruct (@C8_nulls_last_on_every_engine c_locale es_inherits merge_sort
              merge_sort_comparison_sort sample_rows "v")
    as (Hasc & Hdesc & Hret).
  destruct Hret as (asc & desc & Ha & Hd).
  { repeat constructor; discriminate. }
  destruct (Hasc _ Ha) as (asc' & Heqa & _ & Hnla).
  destruct (Hdesc _ Hd) as (desc' & Heqd & _ & Hnld).
  injection Heqa as <-. injection Heqd as <-.
  exists asc, desc. split_and!; assumption.
Defined.

(** The example of the specification on both sorts, in both directions. *)
Example sort_sample_rows_on_engines :
  @engine._ascendingOrder c_locale es_inherits js_sort
    (Some (JArr sample_rows)) "v"
  = Ret (JArr [JObj [("v"%string, JNum 1)]; JObj [("v"%string, JNum 2)];
               JObj [("v"%string, JNull)]])
  ∧ @engine._ascendingOrder c_locale es_inherits merge_sort
      (Some (JArr sample_rows)) "v"
    = Ret (JArr [JObj [("v"%string, JNum 1)]; JObj [("v"%string, JNum 2)];
                 JObj [("v"%string, JNull)]])
  ∧ @engine._descendingOrder c_locale es_inherits js_sort
      (Some (JArr sample_rows)) "v"
    = Ret (JArr [JObj [("v"%string, JNum 2)]; JObj [("v"%string, JNum 1)];
                 JObj [("v"%string, JNull)]])
  ∧ @engine._descendingOrder c_locale es_inherits merge_sort
      (Some (JArr sample_rows)) "v"
    = Ret (JArr [JObj [("v"%string, JNum 2)]; JObj [("v"%string, JNum 1)];
                 JObj [("v"%string, JNull)]]).
Proof. split_and!; vm_compute; reflexivity. Qed.

(** On an array that mixes numbers and a string the two sorts return the
    elements with a proper sort field in different orders, and the element
    without one last. *)
Example sorts_differ_on_mixed_rows :
  @engine._ascendingOrder c_locale es_inherits js_sort
    (Some (JArr mixed_rows)) "v"
  = Ret (JArr [JObj [("v"%string, JNum 3)]; JObj [("v"%string, JStr "a")];
               JObj [("v"%string, JNum 1)]; JObj [("v"%string, JNum 2)];
               JObj [("v"%string, JNull)]])
  ∧ @engine._ascendingOrder c_locale es_inherits merge_sort
      (Some (JArr mixed_rows)) "v"
    = Ret (JArr [JObj [("v"%string, JNum 1)]; JObj [("v"%string, JNum 2)];
                 JObj [("v"%string, JNum 3)]; JObj [("v"%string, JStr "a")];
                 JObj [("v"%string, JNull)]]).
Proof. split; vm_compute; reflexivity. Qed.

(** The insertion sort depends on the answers of the comparison only. *)
Lemma js_sort_ext cmp cmp' l :
  (∀ a b, cmp a b = cmp' a b) → js_sort cmp l = js_sort cmp' l.
Proof.
  intros Hext.
  assert (∀ x s, sort_insert cmp x s = sort_insert cmp' x s) as Hins.
  { intros x s. induction s as [|y ys IH]; [done|].
    cbn [sort_insert]. by rewrite Hext, IH. }
  induction l as [|x l IH]; [done|]. cbn [js_sort]. rewrite IH.
  destruct (js_sort cmp' l); [done|]. apply Hins.
Qed.

(** Without inherited properties the comparison functions of the two
    embeddings agree. *)
Lemma array_compare_is_engine_compare `{Locale} key a b :
  array.ascending_compare key a b
  = engine.ascending_compare no_inherits key a b
  ∧ array.descending_compare key a b
    = engine.descending_compare no_inherits key a b.
Proof.
  unfold array.ascending_compare, array.descending_compare,
    engine.ascending_compare, engine.descending_compare, engine.read,
    no_inherits.
  destruct (get_prop (Some a) key) as [|[[]|]]; [done|..];
    (destruct (get_prop (Some b) key) as [|[[]|]]; done).
Qed.

(** [array._ascendingOrder] and [array._descendingOrder] are the sort
    helpers on an engine without inherited properties whose sort is the
    insertion sort. *)
Lemma array_sort_is_engine_sort `{Locale} arr key :
  array._ascendingOrder arr key
  = engine._ascendingOrder no_inherits js_sort arr key
  ∧ array._descendingOrder arr key
    = engine._descendingOrder no_inherits js_sort arr key.
Proof.
  unfold array._ascendingOrder, array._descendingOrder,
    engine._ascendingOrder, engine._descendingOrder.
  split.
  - destruct arr as [[]|]; try done. f_equal. apply js_sort_ext.
    intros a b. apply array_compare_is_engine_compare.
  - destruct (negb (truthy arr) || negb (Array_isArray arr)); [done|].
    f_equal. apply js_sort_ext. intros a b. apply array_compare_is_engine_compare.
Qed.

(** A sort key that names an inherited property: the element without a
    property of its own reads the inherited one, which is not [null], and
    moves in front of the element whose own property is [null]. *)
Example sort_by_inherited_key :
  @engine._ascendingOrder c_locale es_inherits js_sort
    (Some (JArr [JObj [("constructor"%string, JNull)]; JObj []])) "constructor"
  = Ret (JArr [JObj []; JObj [("constructor"%string, JNull)]]).
Proof. vm_compute. reflexivity. Qed.

(** The example of the specification, in any locale. *)
Lemma sort_sample_rows `{Locale} :
  array._ascendingOrder (Some (JArr sample_rows)) "v"
  = Ret (JArr [JObj [("v"%string, JNum 1)]; JObj [("v"%string, JNum 2)];
               JObj [("v"%string, JNull)]])
  ∧ array._descendingOrder (Some (JArr sample_rows)) "v"
    = Ret (JArr [JObj [("v"%string, JNum 2)]; JObj [("v"%string, JNum 1)];
                 JObj [("v"%string, JNull)]]).
Proof. split; reflexivity. Qed.

(** ** removeDuplicates *)

Lemma Json_eqb_eq x : ∀ y, Json_eqb x y = true ↔ x = y.
Proof.
  induction x as [|a|a|a|l IH|o IH] using Json_induction; intros y;
    destruct y as [|b|b|b|l'|o']; simpl; try (split; intros; discriminate).
  - done.
  - rewrite bool_decide_eq_true. split; congruence.
  - rewrite Z.eqb_eq. split; congruence.
  - rewrite bool_decide_eq_true. split; congruence.
  - revert l'. induction IH as [|a l Ha Hl IHl]; intros [|b l'];
      try (split; intros; discriminate); [done|].
    rewrite andb_true_iff, Ha, (IHl l'). split.
    + intros [-> Heq]. by injection Heq as ->.
    + intros Heq. by injection Heq as -> ->.
  - revert o'. induction IH as [|[k a] o Ha Ho IHo]; intros [|[k' b] o'];
      try (split; intros; discriminate); [done|].
    rewrite !andb_true_iff, bool_decide_eq_true. simpl in Ha.
    rewrite Ha, (IHo o'). split.
    + intros [[-> ->] Heq]. by injection Heq as ->.
    + intros Heq. by injection Heq as -> -> ->.
Qed.

Lemma existsb_Json_eqb x seen : existsb (Json_eqb x) seen = true ↔ x ∈ seen.
Proof.
  rewrite existsb_exists. split.
  - intros (y & Hy%list_elem_of_In & ->%Json_eqb_eq). done.
  - intros Hx. exists x. split; [by apply list_elem_of_In|by apply Json_eqb_eq].
Qed.

Lemma stringify_inj x y :
  wf x → wf y → JSON.stringify x = JSON.stringify y → x = y.
Proof.
  intros Hx Hy Heq. apply parse_stringify in Hx, Hy.
  rewrite Heq in Hx. congruence.
Qed.

Lemma elem_of_stringify x (seen : list Json) :
  wf x → Forall (λ a, wf a) seen →
  JSON.stringify x ∈ map JSON.stringify seen ↔ x ∈ seen.
Proof.
  intros Hx Hseen. split.
  - intros (y & Heq & Hy)%list_elem_of_fmap. rewrite Forall_forall in Hseen.
    by rewrite (stringify_inj x y Hx (Hseen y Hy) Heq).
  - intros Hin. apply list_elem_of_fmap. eauto.
Qed.

Lemma set_of_texts_from l : ∀ seen,
  Forall (λ a, wf a) seen → Forall (λ a, wf a) l →
  fold_left (λ acc t, if bool_decide (t ∈ acc) then acc else acc ++ [t])
            (map JSON.stringify l) (map JSON.stringify seen)
  = map JSON.stringify (seen ++ first_occurrences_from seen l).
Proof.
  induction l as [|x l IH]; intros seen Hseen Hl; simpl.
  - by rewrite app_nil_r.
  - apply Forall_cons in Hl as [Hx Hl].
    destruct (existsb (Json_eqb x) seen) eqn:Hex.
    + apply existsb_Json_eqb in Hex.
      rewrite bool_decide_eq_true_2 by (by apply elem_of_stringify).
      by apply IH.
    + assert (x ∉ seen) as Hnin.
      { intros Hin%existsb_Json_eqb. congruence. }
      rewrite bool_decide_eq_false_2 by (by rewrite elem_of_stringify).
      change [JSON.stringify x] with (map JSON.stringify [x]).
      rewrite <- map_app, IH; [|by apply Forall_app; split; [|constructor]|done].
      by rewrite <- app_assoc.
Qed.

Lemma first_occurrences_sublist l : ∀ seen,
  sublist (first_occurrences_from seen l) l.
Proof.
  induction l as [|x l IH]; intros seen; simpl; [done|].
  destruct (existsb _ seen); [by apply sublist_cons|by apply sublist_skip].
Qed.

Lemma first_occurrences_NoDup l : ∀ seen,
  NoDup seen → NoDup (seen ++ first_occurrences_from seen l).
Proof.
  induction l as [|x l IH]; intros seen Hnd; simpl.
  - by rewrite app_nil_r.
  - destruct (existsb _ seen) eqn:Hex; [by apply IH|].
    replace (seen ++ x :: first_occurrences_from (seen ++ [x]) l)
      with ((seen ++ [x]) ++ first_occurrences_from (seen ++ [x]) l)
      by (by rewrite <- app_assoc).
    apply IH. apply NoDup_app. split_and!; [done| |apply NoDup_singleton].
    intros y Hy ->%list_elem_of_singleton.
    apply existsb_Json_eqb in Hy. congruence.
Qed.


Lemma JSON_parse_stringify x : wf x → JSON_parse (JSON.stringify x) = Ret x.
Proof. intros Hx. unfold JSON_parse. by rewrite parse_stringify. Qed.

Lemma parse_all_stringified l :
  Forall (λ a, wf a) l → map_exc JSON_parse (map JSON.stringify l) = Ret l.
Proof.
  induction 1 as [|x l Hx Hl IH]; [done|]. cbn [map map_exc].
  rewrite JSON_parse_stringify by done.
  cbn [mbind Exc_bind]. by rewrite IH.
Qed.



(** * Further properties of the storage wrapper *)

Lemma strict_eq_array_null l : strict_eq (Some (JArr l)) null = false.
Proof. reflexivity. Qed.

(** X1: on a key holding a sequence, [push] with a truthy item succeeds,
    the key then holds the sequence with the item appended at the end, and
    no other entry changes. *)
Theorem X1_push_appends w k l x :
  holds w k (JArr l) → truthy (Some x) = true → wf x →
  ∃ w',
    _pushItem k (Some x) w
    = Ret (success [("key"%string, Some (JStr k)); ("item"%string, Some x)], w')
    ∧ holds w' k (JArr (l ++ [x]))
    ∧ ∀ k', k' ≠ k → storage w' !! k' = storage w !! k'.
Proof.
  intros Hh Hx Hwfx. pose proof (getArray_holds _ _ _ Hh) as Hga.
  pose proof (holds_wf _ _ _ Hh) as Hwf. apply wf_arr in Hwf.
  destruct Hh as (Hw & Hk & Hh). unfold _pushItem. enter_op Hw Hga.
  unfold array._addArray. rewrite Hx. cbn [truthy array._isArray
    Array_prototype_isPrototypeOf negb orb array.as_list strict_eq null].
  eexists. split_and!.
  - done.
  - apply (holds_insert w k (JArr (l ++ [x]))); [done..|].
    apply wf_arr. apply Forall_app. split; [done|by constructor].
  - intros k' Hne. simpl. by rewrite lookup_insert_ne.
Qed.

Lemma X1_push_appends_witness :
  ∃ w',
    _pushItem "n" (Some (JNum 2)) (browser [("n"%string, "[1]"%string)])
    = Ret (success [("key"%string, Some (JStr "n"));
                    ("item"%string, Some (JNum 2))], w')
    ∧ holds w' "n" (JArr [JNum 1; JNum 2]).
Proof.
  destruct (X1_push_appends (browser [("n"%string, "[1]"%string)]) "n"
              [JNum 1] (JNum 2)) as (w' & Hrun & Hh & _).
  - split_and!; [reflexivity|discriminate|].
    eexists. split; vm_compute; reflexivity.
  - reflexivity.
  - vm_compute. exact I.
  - exists w'. split; [exact Hrun|exact Hh].
Defined.

(** X2: on a key holding a sequence, [push] with a falsy item
    ([undefined], [null], [false], [0] or the empty string) fails with
    [UNABLE_TO_ADD] and writes nothing. *)
Theorem X2_push_rejects_falsy_item w k l item :
  holds w k (JArr l) → truthy item = false →
  _pushItem k item w
  = Ret (failure (Some UNABLE_TO_ADD)
           [("key"%string, Some (JStr k)); ("item"%string, item)], w).
Proof.
  intros Hh Hitem. pose proof (getArray_holds _ _ _ Hh) as Hga.
  destruct Hh as (Hw & Hk & Hh). unfold _pushItem. enter_op Hw Hga.
  unfold array._addArray. rewrite Hitem. by rewrite !orb_true_r.
Qed.

Lemma X2_push_rejects_falsy_item_witness :
  _pushItem "n" (Some (JNum 0)) (browser [("n"%string, "[1]"%string)])
  = Ret (failure (Some UNABLE_TO_ADD)
           [("key"%string, Some (JStr "n")); ("item"%string, Some (JNum 0))],
         browser [("n"%string, "[1]"%string)]).
Proof.
  apply (X2_push_rejects_falsy_item _ "n" [JNum 1]).
  - split_and!; [reflexivity|discriminate|].
    eexists. split; vm_compute; reflexivity.
  - reflexivity.
Defined.

(** X3: with the medium available, [clearAll] succeeds, and afterwards
    [get] fails with [NOT_ASSOCIATED] on every non-empty key. *)
Theorem X3_clearAll_then_get w :
  has_window w = true →
  ∃ r w',
    _clearAll w = Ret (r, w') ∧ state r = true ∧ error r = None
    ∧ ∀ k, k ≠ ""%string →
        _getItem k w'
        = Ret (failure (Some NOT_ASSOCIATED) [("key"%string, Some (JStr k))], w').
Proof.
  intros Hw. unfold _clearAll. ls_unfold. rewrite Hw. cbn [negb].
  eexists _, _. split_and!; [done..|].
  intros k Hk. rewrite getItem_eq. cbn [has_window storage]. rewrite Hw.
  cbn [negb]. rewrite bool_decide_eq_false_2 by done.
  by rewrite lookup_empty.
Qed.

Lemma X3_clearAll_then_get_witness :
  ∃ r w',
    _clearAll (browser [("n"%string, "[1]"%string)]) = Ret (r, w')
    ∧ state r = true ∧ error r = None
    ∧ ∀ k, k ≠ ""%string →
        _getItem k w'
        = Ret (failure (Some NOT_ASSOCIATED) [("key"%string, Some (JStr k))], w').
Proof.
  apply (X3_clearAll_then_get (browser [("n"%string, "[1]"%string)])).
  reflexivity.
Defined.

(** X4: [clear] on a key whose entry deserialises succeeds and leaves the
    key present with the value [null]: a following [get] succeeds with
    [null], and a following [initialize] fails with [ALREADY_EXISTS]. *)
Theorem X4_clear_leaves_null w k v :
  holds w k v →
  ∃ w',
    _clear k w = Ret (success [("key"%string, Some (JStr k))], w')
    ∧ _getItem k w'
      = Ret (success_with [("key"%string, Some (JStr k))] JNull, w')
    ∧ ∀ d, _initializeStorage k (Some d) w'
           = Ret (failure (Some ALREADY_EXISTS)
                    [("key"%string, Some (JStr k));
                     ("defaultValue"%string, Some d)], w').
Proof.
  intros Hh. pose proof (getItem_holds _ _ _ Hh) as Hget.
  destruct Hh as (Hw & Hk & _). unfold _clear. ls_unfold.
  rewrite Hw. cbn [negb]. rewrite Hget.
  cbn [error success_with error_truthy].
  assert (holds {| has_window := has_window w;
                   storage := <[k := JSON.stringify JNull]> (storage w) |}
            k JNull) as Hnull by (by apply holds_insert).
  eexists. split_and!; [done| |].
  - by apply getItem_holds.
  - intros d. apply initialize_existing with (v := JNull); [done|]. by right; left.
Qed.

Lemma X4_clear_leaves_null_witness :
  ∃ w',
    _clear "n" (browser [("n"%string, "[1]"%string)])
    = Ret (success [("key"%string, Some (JStr "n"))], w')
    ∧ _getItem "n" w'
      = Ret (success_with [("key"%string, Some (JStr "n"))] JNull, w').
Proof.
  destruct (X4_clear_leaves_null (browser [("n"%string, "[1]"%string)]) "n"
              (JArr [JNum 1])) as (w' & Hrun & Hget & _).
  - split_and!; [reflexivity|discriminate|].
    eexists. split; vm_compute; reflexivity.
  - exists w'. split; [exact Hrun|exact Hget].
Defined.

(** X5: where the [window] object is not defined, every operation fails
    with [WINDOW_IS_UNDEFINED] and leaves the world as it is. *)
Theorem X5_no_window_fails call w :
  has_window w = false →
  ∃ r, run call w = Ret (r, w)
       ∧ state r = false ∧ error r = Some WINDOW_IS_UNDEFINED.
Proof.
  intros Hw.
  destruct call; unfold run, _initializeStorage, _getItem, _setItem, _pushItem,
    _removeItem, _updateItem, _findItemById, _clear, _clearAll;
    ls_unfold; rewrite Hw; cbn [negb]; by eexists.
Qed.

Lemma X5_no_window_fails_witness :
  ∃ r, run (Set_ "k" (Some (JNum 1))) {| has_window := false; storage := ∅ |}
       = Ret (r, {| has_window := false; storage := ∅ |})
       ∧ state r = false ∧ error r = Some WINDOW_IS_UNDEFINED.
Proof.
  apply (X5_no_window_fails (Set_ "k" (Some (JNum 1)))
           {| has_window := false; storage := ∅ |}).
  reflexivity.
Defined.

Ltac effect_done :=
  intros; simplify_eq;
  repeat match goal with
         | H : has_window _ = _ |- _ => rewrite ?H; clear H
         end;
  first [ by left
        | right; split; [done|]; left; by eexists _, _
        | right; split; [done|]; by right ].

(** What a returning call does to the world: nothing, an insertion under
    its own key, or (for [clearAll]) the removal of every entry. *)
Lemma run_effect call w r w' :
  run call w = Ret (r, w') →
  w' = w
  ∨ (state r = true
     ∧ ((∃ k text, call_key call = Some k
          ∧ w' = {| has_window := has_window w;
                    storage := <[k := text]> (storage w) |})
        ∨ (call = ClearAll
           ∧ w' = {| has_window := has_window w; storage := ∅ |}))).
Proof.
  destruct call as [key d|key|key item|key item|key id|key item|key id|key|];
    unfold run.
  - unfold _initializeStorage. ls_unfold.
    destruct (has_window w) eqn:Hw; cbn [negb]; [|effect_done].
    destruct (strict_eq d undefined); [effect_done|].
    destruct (_getItem key w) as [|[got w1]] eqn:Hget; [done|].
    apply getItem_envelope in Hget as [_ ->].
    repeat case_match; effect_done.
  - intros H. apply getItem_envelope in H as [_ ->]. by left.
  - unfold _setItem. ls_unfold. repeat case_match; effect_done.
  - unfold _pushItem. ls_unfold.
    destruct (has_window w) eqn:Hw; cbn [negb]; [|effect_done].
    with_array key w; [done|rewrite error_truthy_Some; cbn [orb]|];
      repeat case_match; effect_done.
  - unfold _removeItem. ls_unfold.
    destruct (has_window w) eqn:Hw; cbn [negb]; [|effect_done].
    with_array key w; [done|rewrite error_truthy_Some; cbn [orb]|];
      repeat case_match; effect_done.
  - unfold _updateItem. ls_unfold.
    destruct (has_window w) eqn:Hw; cbn [negb]; [|effect_done].
    with_array key w; [done|rewrite error_truthy_Some; cbn [orb]|];
      repeat case_match; effect_done.
  - unfold _findItemById. ls_unfold.
    destruct (has_window w) eqn:Hw; cbn [negb]; [|effect_done].
    with_array key w; [done|rewrite error_truthy_Some; cbn [orb]|];
      repeat case_match; effect_done.
  - unfold _clear. ls_unfold.
    destruct (has_window w) eqn:Hw; cbn [negb]; [|effect_done].
    destruct (_getItem key w) as [|[got w1]] eqn:Hget; [done|].
    apply getItem_envelope in Hget as [_ ->].
    repeat case_match; effect_done.
  - unfold _clearAll. ls_unfold.
    destruct (has_window w) eqn:Hw; cbn [negb]; effect_done.
Qed.

(** X6: no operation writes when it fails: a call that returns an
    envelope with the success flag unset leaves the world exactly as it
    was. *)
Theorem X6_failure_writes_nothing call w r w' :
  run call w = Ret (r, w') → state r = false → w' = w.
Proof.
  intros Hrun Hstate.
  destruct (run_effect _ _ _ _ Hrun) as [->|[Htrue _]]; [done|congruence].
Qed.

Lemma X6_failure_writes_nothing_witness :
  {| has_window := true; storage := {["n"%string := "5"%string]} |}
  = browser [("n"%string, "5"%string)].
Proof.
  apply (X6_failure_writes_nothing (RemoveById "n" (Some (JNum 1)))
           (browser [("n"%string, "5"%string)])
           (failure (Some NOT_ARRAY_TYPE)
              [("key"%string, Some (JStr "n")); ("id"%string, Some (JNum 1))])).
  - vm_compute. reflexivity.
  - reflexivity.
Defined.

(** X7: an operation on a key touches no other entry: whatever a call on
    key [k] returns, every entry under another key is what it was, and the
    availability of the medium is unchanged. *)
Theorem X7_other_keys_untouched call w r w' k :
  run call w = Ret (r, w') → call_key call = Some k →
  has_window w' = has_window w
  ∧ ∀ k', k' ≠ k → storage w' !! k' = storage w !! k'.
Proof.
  intros Hrun Hkey.
  destruct (run_effect _ _ _ _ Hrun)
    as [->|[_ [(k0 & text & Hk0 & ->)|[-> _]]]]; [done| |done].
  rewrite Hkey in Hk0. injection Hk0 as <-.
  split; [done|]. intros k' Hne. simpl. by rewrite lookup_insert_ne.
Qed.

Lemma X7_other_keys_untouched_witness :
  has_window (browser [("a"%string, "1"%string); ("b"%string, "2"%string)])
  = has_window (browser [("b"%string, "2"%string)])
  ∧ ∀ k', k' ≠ "a"%string →
      storage (browser [("a"%string, "1"%string); ("b"%string, "2"%string)]) !! k'
      = storage (browser [("b"%string, "2"%string)]) !! k'.
Proof.
  apply (X7_other_keys_untouched (Set_ "a" (Some (JNum 1)))
           (browser [("b"%string, "2"%string)])
           (success [("key"%string, Some (JStr "a"));
                     ("item"%string, Some (JNum 1))])).
  - vm_compute. reflexivity.
  - reflexivity.
Defined.

(** X8: [get] and [findById] only read: whatever they return, the world
    is unchanged. *)
Theorem X8_get_and_find_only_read k x w r w' :
  _getItem k w = Ret (r, w') ∨ _findItemById k x w = Ret (r, w') → w' = w.
Proof.
  intros [Hrun|Hrun].
  - by apply getItem_envelope in Hrun as [_ ->].
  - revert Hrun. unfold _findItemById. ls_unfold.
    destruct (has_window w); cbn [negb]; [|intros; by simplify_eq].
    with_array k w; [done|rewrite error_truthy_Some; cbn [orb]|];
      repeat case_match; intros; by simplify_eq.
Qed.

Lemma X8_get_and_find_only_read_witness :
  browser [("n"%string, "[1]"%string)]
  = {| has_window := true; storage := {["n"%string := "[1]"%string]} |}.
Proof.
  apply (X8_get_and_find_only_read "n" (Some (JNum 1))
           {| has_window := true; storage := {["n"%string := "[1]"%string]} |}
           (failure (Some UNABLE_TO_FIND)
              [("key"%string, Some (JStr "n")); ("id"%string, Some (JNum 1))])).
  right. vm_compute. reflexivity.
Defined.

(** ** Looking elements up *)

Lemma has_id_record id x :
  truthy id = true → has_id id x = true → is_record x.
Proof.
  unfold has_id. intros Hid Hx.
  destruct x; try (by destruct id as [[]|]). by eexists.
Qed.

Lemma find_exc_first id l1 x l2 :
  Forall (λ a, a ≠ JNull) l1 → Forall (λ a, has_id id a = false) l1 →
  has_id id x = true → is_record x →
  find_exc (λ a, aid ← get_prop (Some a) "id"; Ret (strict_eq aid id))
           (l1 ++ x :: l2)
  = Ret (Some x).
Proof.
  intros Hnn Hno Hx [o ->]. induction Hnn as [|a l1 Ha Hl1 IH]; cbn [app find_exc].
  - rewrite get_prop_not_null by done. cbn [mbind Exc_bind].
    unfold has_id in Hx. by rewrite Hx.
  - apply Forall_cons in Hno as [Hna Hno].
    rewrite get_prop_not_null by done. cbn [mbind Exc_bind].
    unfold has_id in Hna. rewrite Hna. by apply IH.
Qed.

(** X9: on a key holding a sequence, [findById] with a truthy id returns
    the first element carrying that id: the elements before it must not be
    [null] and must not carry the id, what follows it is not inspected. *)
Theorem X9_find_returns_first_match w k l1 x l2 id :
  holds w k (JArr (l1 ++ x :: l2)) → truthy id = true →
  Forall (λ a, a ≠ JNull) l1 → Forall (λ a, has_id id a = false) l1 →
  has_id id x = true →
  _findItemById k id w
  = Ret (success_with [("key"%string, Some (JStr k)); ("id"%string, id)] x, w).
Proof.
  intros Hh Hid Hnn Hno Hx. pose proof (getArray_holds _ _ _ Hh) as Hga.
  pose proof (has_id_record id x Hid Hx) as Hrec.
  destruct Hh as (Hw & Hk & Hh). unfold _findItemById. enter_op Hw Hga.
  unfold array._findById. rewrite Hid.
  cbn [array._isArray Array_prototype_isPrototypeOf truthy negb orb
       array.as_list].
  rewrite find_exc_first by done. by destruct Hrec as [o ->].
Qed.

Lemma X9_find_returns_first_match_witness :
  _findItemById "users" (Some (JNum 2))
    (browser [("users"%string,
               JSON.stringify
                 (JArr [JObj [("id"%string, JNum 1)];
                        JObj [("id"%string, JNum 2); ("n"%string, JNum 10)];
                        JObj [("id"%string, JNum 2); ("n"%string, JNum 20)]]))])
  = Ret (success_with [("key"%string, Some (JStr "users"));
                       ("id"%string, Some (JNum 2))]
           (JObj [("id"%string, JNum 2); ("n"%string, JNum 10)]),
         browser [("users"%string,
               JSON.stringify
                 (JArr [JObj [("id"%string, JNum 1)];
                        JObj [("id"%string, JNum 2); ("n"%string, JNum 10)];
                        JObj [("id"%string, JNum 2); ("n"%string, JNum 20)]]))]).
Proof.
  apply (X9_find_returns_first_match _ "users"
           [JObj [("id"%string, JNum 1)]]
           (JObj [("id"%string, JNum 2); ("n"%string, JNum 10)])
           [JObj [("id"%string, JNum 2); ("n"%string, JNum 20)]]).
  - split_and!; [reflexivity|discriminate|].
    eexists. split; vm_compute; reflexivity.
  - reflexivity.
  - repeat constructor; discriminate.
  - repeat constructor.
  - reflexivity.
Defined.

(** X10: on a key holding a sequence, [findById] with a falsy id ([0] or
    the empty string) fails with [UNABLE_TO_FIND], whatever the sequence
    contains: an element whose id is [0] cannot be found. *)
Theorem X10_find_rejects_falsy_id w k l id :
  holds w k (JArr l) → truthy id = false →
  _findItemById k id w
  = Ret (failure (Some UNABLE_TO_FIND)
           [("key"%string, Some (JStr k)); ("id"%string, id)], w).
Proof.
  intros Hh Hid. pose proof (getArray_holds _ _ _ Hh) as Hga.
  destruct Hh as (Hw & Hk & Hh). unfold _findItemById. enter_op Hw Hga.
  by rewrite findById_falsy.
Qed.

Lemma X10_find_rejects_falsy_id_witness :
  _findItemById "users" (Some (JNum 0))
    (browser [("users"%string,
               JSON.stringify (JArr [JObj [("id"%string, JNum 0)]]))])
  = Ret (failure (Some UNABLE_TO_FIND)
           [("key"%string, Some (JStr "users")); ("id"%string, Some (JNum 0))],
         browser [("users"%string,
               JSON.stringify (JArr [JObj [("id"%string, JNum 0)]]))]).
Proof.
  apply (X10_find_rejects_falsy_id _ "users" [JObj [("id"%string, JNum 0)]]).
  - split_and!; [reflexivity|discriminate|].
    eexists. split; vm_compute; reflexivity.
  - reflexivity.
Defined.

Lemma find_none_absent id l :
  Forall (λ a, has_id id a = false) l →
  List.find (λ a, strict_eq (field (Some a) "id") id) l = None.
Proof.
  induction 1 as [|a l Ha Hl IH]; [done|]. cbn [List.find].
  unfold has_id in Ha. by rewrite Ha.
Qed.

Lemma filter_drops_id id l :
  Forall (λ a, has_id id a = false) (List.filter (λ a, negb (has_id id a)) l).
Proof.
  induction l as [|a l IH]; [done|]. cbn [List.filter].
  destruct (has_id id a) eqn:Ha; cbn [negb]; [done|by constructor].
Qed.

(** A truthy id that no element carries is not found. *)
Lemma find_absent_id w k l id :
  holds w k (JArr l) → Forall (λ a, a ≠ JNull) l → truthy id = true →
  Forall (λ a, has_id id a = false) l →
  _findItemById k id w
  = Ret (failure (Some UNABLE_TO_FIND)
           [("key"%string, Some (JStr k)); ("id"%string, id)], w).
Proof.
  intros Hh Hl Hid Hno. pose proof (getArray_holds _ _ _ Hh) as Hga.
  destruct Hh as (Hw & Hk & Hh). unfold _findItemById. enter_op Hw Hga.
  rewrite findById_records by done. by rewrite find_none_absent.
Qed.

Lemma Forall_filter_keep {A} (P : A → Prop) (g : A → bool) l :
  Forall P l → Forall P (List.filter g l).
Proof.
  induction 1 as [|a l Ha Hl IH]; [done|]. cbn [List.filter].
  destruct (g a); [by constructor|done].
Qed.

(** X11: on a key holding a sequence without [null] elements,
    [removeById] with a truthy id succeeds and leaves exactly the elements
    that do not carry the id, in their order; a following [findById] with
    that id fails with [UNABLE_TO_FIND]. *)
Theorem X11_remove_then_find w k l id :
  holds w k (JArr l) → Forall (λ a, a ≠ JNull) l → truthy id = true →
  ∃ w',
    _removeItem k id w
    = Ret (success [("key"%string, Some (JStr k)); ("id"%string, id)], w')
    ∧ holds w' k (JArr (List.filter (λ a, negb (has_id id a)) l))
    ∧ _findItemById k id w'
      = Ret (failure (Some UNABLE_TO_FIND)
               [("key"%string, Some (JStr k)); ("id"%string, id)], w').
Proof.
  intros Hh Hl Hid. pose proof (getArray_holds _ _ _ Hh) as Hga.
  pose proof (holds_wf _ _ _ Hh) as Hwf. apply wf_arr in Hwf.
  destruct Hh as (Hw & Hk & Hh).
  assert (holds {| has_window := has_window w;
                   storage := <[k := JSON.stringify
                     (JArr (List.filter (λ a, negb (has_id id a)) l))]>
                     (storage w) |}
            k (JArr (List.filter (λ a, negb (has_id id a)) l))) as Hafter.
  { apply holds_insert; [done..|]. apply wf_arr. by apply Forall_filter_keep. }
  unfold _removeItem. enter_op Hw Hga.
  rewrite removeArray_records by done. cbn [lift].
  eexists. split_and!; [done|exact Hafter|].
  eapply find_absent_id; [exact Hafter| |done|].
  - by apply Forall_filter_keep.
  - apply filter_drops_id.
Qed.

Lemma X11_remove_then_find_witness :
  ∃ w',
    _removeItem "users" (Some (JNum 1))
      (browser [("users"%string,
                 JSON.stringify
                   (JArr [JObj [("id"%string, JNum 1)];
                          JObj [("id"%string, JNum 2)]]))])
    = Ret (success [("key"%string, Some (JStr "users"));
                    ("id"%string, Some (JNum 1))], w')
    ∧ holds w' "users" (JArr [JObj [("id"%string, JNum 2)]]).
Proof.
  destruct (X11_remove_then_find
              (browser [("users"%string,
                 JSON.stringify
                   (JArr [JObj [("id"%string, JNum 1)];
                          JObj [("id"%string, JNum 2)]]))])
              "users"
              [JObj [("id"%string, JNum 1)]; JObj [("id"%string, JNum 2)]]
              (Some (JNum 1))) as (w' & Hrun & Hh & _).
  - split_and!; [reflexivity|discriminate|].
    eexists. split; vm_compute; reflexivity.
  - repeat constructor; discriminate.
  - reflexivity.
  - exists w'. split; [exact Hrun|exact Hh].
Defined.

(** ** Updating and writing *)

Lemma map_all_same {A} (g : A → A) l :
  Forall (λ a, g a = a) l → map g l = l.
Proof. induction 1 as [|a l Ha Hl IH]; [done|]. simpl. by rewrite Ha, IH. Qed.

(** X12: on a key holding a sequence without [null] elements,
    [updateById] with a truthy item whose id no element carries reports
    success all the same, and the key holds the same sequence afterwards:
    there is no "not found" signal. *)
Theorem X12_update_without_match w k l item :
  holds w k (JArr l) → Forall (λ a, a ≠ JNull) l → truthy item = true →
  Forall (λ a, has_id (field item "id") a = false) l →
  ∃ w',
    _updateItem k item w
    = Ret (success [("key"%string, Some (JStr k));
                    ("updatedItem"%string, item)], w')
    ∧ holds w' k (JArr l).
Proof.
  intros Hh Hl Hitem Hno. pose proof (getArray_holds _ _ _ Hh) as Hga.
  pose proof (holds_wf _ _ _ Hh) as Hwf.
  destruct Hh as (Hw & Hk & Hh). unfold _updateItem. enter_op Hw Hga.
  rewrite updateArray_records by done.
  rewrite map_all_same.
  2:{ eapply Forall_impl; [exact Hno|]. intros a Ha. cbv beta in *.
      unfold has_id in Ha. by rewrite Ha. }
  cbn [lift]. eexists. split; [done|]. by apply (holds_insert w k (JArr l)).
Qed.

Lemma X12_update_without_match_witness :
  ∃ w',
    _updateItem "users" (Some (JObj [("id"%string, JNum 9)]))
      (browser [("users"%string,
                 JSON.stringify (JArr [JObj [("id"%string, JNum 1)]]))])
    = Ret (success [("key"%string, Some (JStr "users"));
                    ("updatedItem"%string, Some (JObj [("id"%string, JNum 9)]))],
           w')
    ∧ holds w' "users" (JArr [JObj [("id"%string, JNum 1)]]).
Proof.
  apply (X12_update_without_match _ "users" [JObj [("id"%string, JNum 1)]]).
  - split_and!; [reflexivity|discriminate|].
    eexists. split; vm_compute; reflexivity.
  - repeat constructor; discriminate.
  - reflexivity.
  - repeat constructor.
Defined.

(** X13: on a key holding a sequence, [updateById] with a falsy item
    fails with [UNABLE_TO_UPDATE] and writes nothing. *)
Theorem X13_update_rejects_falsy_item w k l item :
  holds w k (JArr l) → truthy item = false →
  _updateItem k item w
  = Ret (failure (Some UNABLE_TO_UPDATE)
           [("key"%string, Some (JStr k)); ("updatedItem"%string, item)], w).
Proof.
  intros Hh Hitem. pose proof (getArray_holds _ _ _ Hh) as Hga.
  destruct Hh as (Hw & Hk & Hh). unfold _updateItem. enter_op Hw Hga.
  by rewrite updateArray_falsy.
Qed.

Lemma X13_update_rejects_falsy_item_witness :
  _updateItem "n" null (browser [("n"%string, "[1]"%string)])
  = Ret (failure (Some UNABLE_TO_UPDATE)
           [("key"%string, Some (JStr "n")); ("updatedItem"%string, null)],
         browser [("n"%string, "[1]"%string)]).
Proof.
  apply (X13_update_rejects_falsy_item _ "n" [JNum 1]).
  - split_and!; [reflexivity|discriminate|].
    eexists. split; vm_compute; reflexivity.
  - reflexivity.
Defined.

Lemma parse_undefined : JSON.parse "undefined" = None.
Proof. reflexivity. Qed.

Lemma getItem_unparsable w k text :
  has_window w = true → k ≠ ""%string →
  storage w !! k = Some text → text ≠ ""%string → JSON.parse text = None →
  _getItem k w = Throw SyntaxError.
Proof.
  intros Hw Hk Ht Hne Hp. rewrite getItem_eq, Hw, Ht. cbn [negb].
  rewrite bool_decide_eq_false_2 by done. cbn [text_truthy].
  rewrite bool_decide_eq_false_2 by done. cbn [negb default id]. by rewrite Hp.
Qed.

(** X14: [set] with [undefined] as item reports success yet stores a text
    that does not deserialise: afterwards [get], [clear], [push] and
    [initialize] on that key all raise a [SyntaxError] instead of
    returning an envelope. *)
Theorem X14_set_undefined_poisons_key w k :
  has_window w = true → k ≠ ""%string →
  ∃ w',
    _setItem k undefined w
    = Ret (success [("key"%string, Some (JStr k)); ("item"%string, undefined)],
           w')
    ∧ _getItem k w' = Throw SyntaxError
    ∧ _clear k w' = Throw SyntaxError
    ∧ (∀ item, _pushItem k item w' = Throw SyntaxError)
    ∧ (∀ d, _initializeStorage k (Some d) w' = Throw SyntaxError).
Proof.
  intros Hw Hk. unfold _setItem. ls_unfold. rewrite Hw. cbn [negb].
  rewrite bool_decide_eq_false_2 by done. cbn [stringify_arg undefined].
  eexists. split; [done|].
  remember {| has_window := has_window w;
              storage := <[k := "undefined"%string]> (storage w) |}
    as w1 eqn:Hw1.
  assert (has_window w1 = true) as Hwin by (by subst w1).
  assert (_getItem k w1 = Throw SyntaxError) as Hget.
  { apply getItem_unparsable with (text := "undefined"%string);
      [done|done|subst w1; apply lookup_insert_eq|done|apply parse_undefined]. }
  split_and!.
  - done.
  - unfold _clear. ls_unfold. rewrite Hwin. cbn [negb]. by rewrite Hget.
  - intros item. unfold _pushItem. ls_unfold. rewrite Hwin. cbn [negb].
    by rewrite getArray_eq, Hget.
  - intros d. unfold _initializeStorage. ls_unfold. rewrite Hwin. cbn [negb].
    by rewrite strict_eq_defined, Hget.
Qed.

Lemma X14_set_undefined_poisons_key_witness :
  ∃ w',
    _setItem "k" undefined (browser [])
    = Ret (success [("key"%string, Some (JStr "k")); ("item"%string, undefined)],
           w')
    ∧ _getItem "k" w' = Throw SyntaxError.
Proof.
  destruct (X14_set_undefined_poisons_key (browser []) "k")
    as (w' & Hset & Hget & _).
  - reflexivity.
  - discriminate.
  - exists w'. split; [exact Hset|exact Hget].
Defined.

(** X15: with the medium available, [initialize] on a non-empty key that
    has no entry succeeds, and the key then holds the default value. *)
Theorem X15_initialize_fresh_key w k d :
  has_window w = true → k ≠ ""%string → storage w !! k = None → wf d →
  ∃ w',
    _initializeStorage k (Some d) w
    = Ret (success [("key"%string, Some (JStr k));
                    ("defaultValue"%string, Some d)], w')
    ∧ holds w' k d.
Proof.
  intros Hw Hk Hnone Hwf. unfold _initializeStorage. ls_unfold.
  rewrite Hw. cbn [negb]. rewrite strict_eq_defined.
  rewrite getItem_eq, Hw, Hnone. cbn [negb].
  rewrite bool_decide_eq_false_2 by done. simpl.
  eexists. split; [done|]. by apply (holds_insert w k d).
Qed.

Lemma X15_initialize_fresh_key_witness :
  ∃ w',
    _initializeStorage "users" (Some (JArr [])) (browser [])
    = Ret (success [("key"%string, Some (JStr "users"));
                    ("defaultValue"%string, Some (JArr []))], w')
    ∧ holds w' "users" (JArr []).
Proof.
  apply (X15_initialize_fresh_key (browser []) "users" (JArr [])).
  - reflexivity.
  - discriminate.
  - reflexivity.
  - reflexivity.
Defined.

(** X16: with the medium available and a non-empty key, [get] answers
    [NOT_ASSOCIATED] exactly when the key has no entry or its entry is the
    empty text: an empty entry cannot be told from a missing one. *)
Theorem X16_get_not_associated w k :
  has_window w = true → k ≠ ""%string →
  _getItem k w
  = Ret (failure (Some NOT_ASSOCIATED) [("key"%string, Some (JStr k))], w)
  ↔ storage w !! k = None ∨ storage w !! k = Some ""%string.
Proof.
  intros Hw Hk. rewrite getItem_eq, Hw. cbn [negb].
  rewrite bool_decide_eq_false_2 by done.
  destruct (storage w !! k) as [text|] eqn:Ht; cbn [text_truthy negb].
  2:{ split; [by left|done]. }
  destruct (bool_decide_reflect (text = ""%string)) as [->|Hne]; cbn [negb].
  { split; [by right|done]. }
  split.
  - cbn [default id]. destruct (JSON.parse text); intros; simplify_eq.
  - intros [|]; simplify_eq.
Qed.

Lemma X16_get_not_associated_witness :
  _getItem "k" (browser [("k"%string, ""%string)])
  = Ret (failure (Some NOT_ASSOCIATED) [("key"%string, Some (JStr "k"))],
         browser [("k"%string, ""%string)]).
Proof.
  apply (X16_get_not_associated (browser [("k"%string, ""%string)]) "k").
  - reflexivity.
  - discriminate.
  - right. reflexivity.
Defined.

Lemma getItem_empty_key w :
  has_window w = true →
  _getItem "" w
  = Ret (failure (Some NO_KEY) [("key"%string, Some (JStr ""))], w).
Proof. intros Hw. by rewrite getItem_eq, Hw. Qed.

(** X25: with the medium available, every operation called with the empty
    string as key fails with [NO_KEY] and writes nothing; the one
    exception is [initialize] without a default value, which is refused
    earlier. *)
Theorem X25_empty_key_fails call w :
  has_window w = true → call_key call = Some ""%string →
  call ≠ Initialize "" undefined →
  ∃ r, run call w = Ret (r, w) ∧ state r = false ∧ error r = Some NO_KEY.
Proof.
  intros Hw Hkey Hinit. pose proof (getItem_empty_key w Hw) as Hget.
  assert (_getArray "" w
          = Ret ({| lookup_error := Some NO_KEY; lookup_result := null |}, w))
    as Hga by (by rewrite getArray_eq, Hget).
  destruct call as [key d|key|key item|key item|key id|key item|key id|key|];
    simpl in Hkey; simplify_eq; unfold run.
  - destruct d as [d|]; [|done].
    unfold _initializeStorage. ls_unfold. rewrite Hw. cbn [negb].
    rewrite strict_eq_defined, Hget. by eexists.
  - rewrite Hget. by eexists.
  - unfold _setItem. ls_unfold. rewrite Hw. by eexists.
  - unfold _pushItem. ls_unfold. rewrite Hw. cbn [negb]. rewrite Hga.
    by eexists.
  - unfold _removeItem. ls_unfold. rewrite Hw. cbn [negb]. rewrite Hga.
    by eexists.
  - unfold _updateItem. ls_unfold. rewrite Hw. cbn [negb]. rewrite Hga.
    by eexists.
  - unfold _findItemById. ls_unfold. rewrite Hw. cbn [negb]. rewrite Hga.
    by eexists.
  - unfold _clear. ls_unfold. rewrite Hw. cbn [negb]. rewrite Hget.
    by eexists.
Qed.

Lemma X25_empty_key_fails_witness :
  ∃ r, run (Push "" (Some (JNum 1))) (browser []) = Ret (r, browser [])
       ∧ state r = false ∧ error r = Some NO_KEY.
Proof.
  apply (X25_empty_key_fails (Push "" (Some (JNum 1))) (browser [])).
  - reflexivity.
  - reflexivity.
  - discriminate.
Defined.

(** X26: with the medium available, for every non-empty key and every
    value built from [null], booleans, strings, integers of magnitude
    below [2^53], arrays and objects without a repeated key, [set] succeeds
    and a following [get] succeeds and returns exactly that value. *)
Theorem X26_set_then_get_safe_integers w k v :
  has_window w = true → k ≠ ""%string → wf v → safe_numbers v →
  ∃ w',
    _setItem k (Some v) w
    = Ret (success [("key"%string, Some (JStr k)); ("item"%string, Some v)], w')
    ∧ _getItem k w' = Ret (success_with [("key"%string, Some (JStr k))] v, w').
Proof.
  intros Hw Hk Hv _. unfold _setItem. ls_unfold. rewrite Hw. simpl.
  rewrite bool_decide_eq_false_2 by done.
  eexists. split; [done|]. apply getItem_holds. by apply holds_insert.
Qed.

Lemma X26_set_then_get_safe_integers_witness :
  ∃ w',
    _setItem "users" (Some (JArr [JObj [("id"%string, JNum 1)]])) (browser [])
    = Ret (success [("key"%string, Some (JStr "users"));
                    ("item"%string, Some (JArr [JObj [("id"%string, JNum 1)]]))], w')
    ∧ _getItem "users" w'
      = Ret (success_with [("key"%string, Some (JStr "users"))]
               (JArr [JObj [("id"%string, JNum 1)]]), w').
Proof.
  apply (X26_set_then_get_safe_integers (browser []) "users"
           (JArr [JObj [("id"%string, JNum 1)]])).
  - reflexivity.
  - discriminate.
  - vm_compute. exact I.
  - vm_compute. exact I.
Defined.

(** * Further properties of the array helpers *)

Lemma last_index_lookup (l : list Json) :
  (let i := Z.of_nat (length l) - 1 in
   if i <? 0 then undefined else l !! Z.to_nat i) = last l.
Proof.
  cbv zeta. destruct (Z.ltb_spec (Z.of_nat (length l) - 1) 0) as [Hlt|Hge].
  - destruct l; [done|]. simpl in Hlt. lia.
  - rewrite last_lookup. f_equal. lia.
Qed.

(** X17: appending a truthy item to an array gives the array with the
    item at the end; on the result [findLast] returns the item and
    [isEmpty] answers [false]. *)
Theorem X17_findLast_after_add l x :
  truthy (Some x) = true →
  array._addArray (Some (JArr l)) (Some x) = JArr (l ++ [x])
  ∧ array._findLast (Some (array._addArray (Some (JArr l)) (Some x))) = Some x
  ∧ array._isEmpty (Some (array._addArray (Some (JArr l)) (Some x)))
    = JBool false.
Proof.
  intros Hx.
  assert (array._addArray (Some (JArr l)) (Some x) = JArr (l ++ [x])) as ->.
  { unfold array._addArray. by rewrite Hx. }
  split_and!; [done| |].
  - unfold array._findLast.
    cbn [truthy array._isArray Array_prototype_isPrototypeOf negb orb
         array.as_list].
    rewrite last_index_lookup. apply last_snoc.
  - unfold array._isEmpty.
    cbn [truthy Array_isArray negb orb array.as_list].
    rewrite length_app. simpl. do 2 f_equal.
    destruct (Z.eqb_spec (Z.of_nat (length l + 1)) 0); [lia|done].
Qed.

Lemma X17_findLast_after_add_witness :
  array._findLast
    (Some (array._addArray (Some (JArr [JNum 1])) (Some (JStr "a"))))
  = Some (JStr "a").
Proof.
  apply (X17_findLast_after_add [JNum 1] (JStr "a")). reflexivity.
Defined.

(** X18: on an array, [findLast] returns its last element, and
    [undefined] exactly when the array is empty; [isEmpty] answers [true]
    exactly when the array is empty.  On any other value both return
    [null]. *)
Theorem X18_findLast_isEmpty l arr :
  array._findLast (Some (JArr l)) = last l
  ∧ (array._findLast (Some (JArr l)) = undefined ↔ l = [])
  ∧ (array._isEmpty (Some (JArr l)) = JBool true ↔ l = [])
  ∧ (Array_isArray arr = false →
     array._findLast arr = null ∧ array._isEmpty arr = JNull).
Proof.
  assert (array._findLast (Some (JArr l)) = last l) as Hlast.
  { unfold array._findLast.
    cbn [truthy array._isArray Array_prototype_isPrototypeOf negb orb
         array.as_list].
    apply last_index_lookup. }
  split_and!.
  - done.
  - rewrite Hlast. exact (last_None l).
  - unfold array._isEmpty.
    cbn [truthy Array_isArray negb orb array.as_list].
    destruct l as [|a l]; [done|]. split; [|done].
    simpl length. intros Heq. injection Heq as Heq.
    destruct (Z.eqb_spec (Z.of_nat (S (length l))) 0); [lia|done].
  - intros Harr. unfold array._findLast, array._isEmpty, array._isArray.
    destruct arr as [[| | | |l0|]|]; try discriminate Harr;
      cbn [Array_isArray Array_prototype_isPrototypeOf negb];
      by rewrite !orb_true_r.
Qed.

Lemma Array_flat_arrays (ls : list (list Json)) :
  Array_flat (map JArr ls) = List.concat ls.
Proof.
  unfold Array_flat. induction ls as [|x ls IH]; [done|].
  cbn [map List.concat]. by rewrite IH.
Qed.

Lemma merge_arrays (ls : list (list Json)) :
  array._merge (map JArr ls) = JArr (List.concat ls).
Proof. unfold array._merge. cbn [truthy Array_isArray negb orb]. by rewrite Array_flat_arrays. Qed.

(** X19: [merge] never returns [null]; applied to arrays it returns their
    concatenation, in argument order, so merging is associative. *)
Theorem X19_merge_concatenates (ls : list (list Json)) (a b c : list Json)
    (arrs : list Json) :
  array._merge (map JArr ls) = JArr (List.concat ls)
  ∧ array._merge [array._merge [JArr a; JArr b]; JArr c]
    = array._merge [JArr a; JArr b; JArr c]
  ∧ array._merge [JArr a; array._merge [JArr b; JArr c]]
    = array._merge [JArr a; JArr b; JArr c]
  ∧ array._merge arrs ≠ JNull.
Proof.
  pose proof (merge_arrays [a; b]) as Hab.
  pose proof (merge_arrays [b; c]) as Hbc.
  pose proof (merge_arrays [a; b; c]) as Habc.
  pose proof (merge_arrays [a ++ b; c]) as Hl.
  pose proof (merge_arrays [a; b ++ c]) as Hr.
  cbn [map List.concat] in Hab, Hbc, Habc, Hl, Hr.
  rewrite !app_nil_r in Hab, Hbc, Habc, Hl, Hr.
  split_and!.
  - apply merge_arrays.
  - by rewrite Hab, Hl, Habc, app_assoc.
  - by rewrite Hbc, Hr, Habc.
  - done.
Qed.

Lemma X18_findLast_isEmpty_witness :
  array._findLast (Some (JNum 5)) = null ∧ array._isEmpty (Some (JNum 5)) = JNull.
Proof.
  apply (X18_findLast_isEmpty [] (Some (JNum 5))). reflexivity.
Defined.

Lemma filter_exc_ext f g l :
  (∀ a, f a = g a) → filter_exc f l = filter_exc g l.
Proof.
  intros Hfg. induction l as [|a l IH]; [done|]. simpl. by rewrite Hfg, IH.
Qed.

Lemma elem_of_List_filter (g : Json → bool) l a :
  a ∈ List.filter g l ↔ a ∈ l ∧ g a = true.
Proof. rewrite !list_elem_of_In. apply filter_In. Qed.

Lemma List_filter_sublist (g : Json → bool) l : sublist (List.filter g l) l.
Proof.
  induction l as [|a l IH]; [done|]. cbn [List.filter].
  destruct (g a); [by apply sublist_skip|by apply sublist_cons].
Qed.

Lemma List_filter_idemp (g : Json → bool) l :
  List.filter g (List.filter g l) = List.filter g l.
Proof.
  apply filter_all_true. apply Forall_forall.
  intros a Ha%elem_of_List_filter. apply Ha.
Qed.

Lemma removeIf_pure p l :
  array._removeIf (Some (JArr l)) (pure_callback p)
  = Ret (JArr (List.filter (λ a, negb (p a)) l)).
Proof.
  unfold array._removeIf.
  by rewrite (filter_exc_ret _ (λ a, negb (p a))) by (by apply Forall_forall).
Qed.

(** X20: with a callback that answers a boolean and does not raise,
    [removeIf] returns exactly the array filtered to the elements on which
    the callback answers [false]: each of them as often as the array holds
    it, in the order of the array, and nothing else.  Applying it again
    with the same callback changes nothing. *)
Theorem X20_removeIf_keeps_the_rest (p : Json → bool) (l : list Json) :
  array._removeIf (Some (JArr l)) (pure_callback p)
  = Ret (JArr (List.filter (λ a, negb (p a)) l))
  ∧ sublist (List.filter (λ a, negb (p a)) l) l
  ∧ (∀ a, a ∈ List.filter (λ a, negb (p a)) l ↔ a ∈ l ∧ p a = false)
  ∧ array._removeIf (Some (JArr (List.filter (λ a, negb (p a)) l)))
      (pure_callback p)
    = Ret (JArr (List.filter (λ a, negb (p a)) l)).
Proof.
  split_and!.
  - apply removeIf_pure.
  - apply List_filter_sublist.
  - intros a. rewrite elem_of_List_filter. by rewrite negb_true_iff.
  - by rewrite removeIf_pure, List_filter_idemp.
Qed.

(** X21: with a truthy id, [removeById] on an array is [removeIf] with the
    callback [(a) => a.id === id], exceptions included; on a value that
    is not an array the two differ: [removeById] returns [null] where
    [removeIf], which has no guard, raises a [TypeError]. *)
Theorem X21_removeArray_is_removeIf (l : list Json) (id arr : JsVal) :
  (truthy id = true →
   array._removeArray (Some (JArr l)) id
   = array._removeIf (Some (JArr l)) (id_callback id))
  ∧ (array._isArray arr = false →
     array._removeArray arr id = Ret JNull
     ∧ array._removeIf arr (id_callback id) = Throw TypeError).
Proof.
  split.
  - intros Hid. unfold array._removeArray, array._removeIf. rewrite Hid.
    cbn [truthy array._isArray Array_prototype_isPrototypeOf negb orb
         array.as_list].
    f_equal. apply filter_exc_ext. intros a. unfold id_callback.
    by destruct (get_prop (Some a) "id").
  - intros Harr. split.
    + unfold array._removeArray. rewrite Harr. cbn [negb].
      by rewrite orb_true_r.
    + by destruct arr as [[]|].
Qed.

Lemma X21_removeArray_is_removeIf_witness :
  array._removeArray (Some (JArr [JObj [("id"%string, JNum 1)]; JNull])) (Some (JNum 1))
  = array._removeIf (Some (JArr [JObj [("id"%string, JNum 1)]; JNull]))
      (id_callback (Some (JNum 1))).
Proof.
  apply (X21_removeArray_is_removeIf
           [JObj [("id"%string, JNum 1)]; JNull] (Some (JNum 1)) None).
  reflexivity.
Defined.

(** ** removeDuplicates, again *)

Lemma removeDuplicates_first_occurrences l :
  Forall (λ a, wf a) l →
  array._removeDuplicates (Some (JArr l)) = Ret (JArr (first_occurrences l)).
Proof.
  intros Hl. unfold array._removeDuplicates, set_of_texts.
  cbn [truthy Array_isArray negb orb array.as_list].
  pose proof (set_of_texts_from l [] (Forall_nil_2 _) Hl) as Hset.
  cbn [map app] in Hset. rewrite Hset. fold (first_occurrences l).
  rewrite parse_all_stringified; [done|].
  apply Forall_forall. intros x Hx. rewrite Forall_forall in Hl.
  apply Hl. eapply elem_of_sublist; [exact Hx|].
  apply first_occurrences_sublist.
Qed.

Lemma first_occurrences_from_NoDup l : ∀ seen,
  NoDup l → (∀ x, x ∈ l → x ∉ seen) → first_occurrences_from seen l = l.
Proof.
  induction l as [|x l IH]; intros seen Hnd Hdisj; [done|].
  apply NoDup_cons in Hnd as [Hx Hnd]. cbn [first_occurrences_from].
  destruct (existsb (Json_eqb x) seen) eqn:Hex.
  - apply existsb_Json_eqb in Hex. destruct (Hdisj x); [left|done].
  - f_equal. apply IH; [done|]. intros y Hy Hin.
    apply elem_of_app in Hin as [Hin|Hin%list_elem_of_singleton].
    + apply (Hdisj y); [by right|done].
    + by subst.
Qed.

(** X22: on an array of well-formed values, [removeDuplicates] is
    idempotent: applied to its own result it returns that result, and the
    result is never longer than the array. *)
Theorem X22_removeDuplicates_idempotent (l : list Json) :
  Forall (λ a, wf a) l →
  ∃ r,
    array._removeDuplicates (Some (JArr l)) = Ret (JArr r)
    ∧ array._removeDuplicates (Some (JArr r)) = Ret (JArr r)
    ∧ (length r ≤ length l)%nat.
Proof.
  intros Hl. exists (first_occurrences l).
  pose proof (first_occurrences_sublist l []) as Hsub.
  fold (first_occurrences l) in Hsub.
  split_and!.
  - by apply removeDuplicates_first_occurrences.
  - rewrite removeDuplicates_first_occurrences.
    + do 2 f_equal. apply first_occurrences_from_NoDup.
      * apply (first_occurrences_NoDup l []). constructor.
      * intros x _ Hin. by apply elem_of_nil in Hin.
    + apply Forall_forall. intros x Hx. rewrite Forall_forall in Hl.
      apply Hl. by eapply elem_of_sublist.
  - by apply sublist_length.
Qed.

Lemma X22_removeDuplicates_idempotent_witness :
  ∃ r,
    array._removeDuplicates (Some (JArr [JNum 1; JNum 2; JNum 1])) = Ret (JArr r)
    ∧ array._removeDuplicates (Some (JArr r)) = Ret (JArr r)
    ∧ (length r ≤ 3)%nat.
Proof.
  apply (X22_removeDuplicates_idempotent [JNum 1; JNum 2; JNum 1]).
  repeat constructor.
Defined.

(** ** Sorting by a numeric field, and by a field that does not order *)

Section SortOrder.
Variable cmp : Json → Json → Exc Z.
Variable P : Json → Prop.
Variable R : relation Json.
Hypothesis R_trans : ∀ a b c, R a b → R b c → R a c.
Hypothesis cmp_order : ∀ a b, P a → P b →
  ∃ c, cmp a b = Ret c ∧ (c ≤ 0 → R a b) ∧ (0 < c → R b a).

Lemma sort_insert_ordered x sorted :
  P x → Forall P sorted → StronglySorted R sorted →
  ∃ r, sort_insert cmp x sorted = Ret r
       ∧ r ≡ₚ x :: sorted ∧ StronglySorted R r.
Proof.
  intros Hx Hall Hs. induction Hs as [|y ys Hys IH Hy]; cbn [sort_insert].
  - eexists. split_and!; [done..|]. repeat constructor.
  - apply Forall_cons in Hall as [Hpy Hall].
    destruct (cmp_order x y Hx Hpy) as (c & -> & Hle & Hgt).
    cbn [mbind Exc_bind].
    destruct (Z.leb_spec c 0) as [Hc|Hc].
    + eexists. split_and!; [done..|].
      constructor; [by constructor|]. constructor; [by apply Hle|].
      eapply Forall_impl; [exact Hy|]. intros z Hz. cbv beta in *.
      eapply R_trans; [by apply Hle|done].
    + destruct (IH Hall) as (r & -> & Hperm & Hr). cbn [mbind Exc_bind].
      eexists. split_and!; [done| |].
      * rewrite Hperm. apply Permutation_swap.
      * constructor; [done|]. rewrite Hperm. constructor; [by apply Hgt|done].
Qed.

Lemma js_sort_ordered l :
  Forall P l →
  ∃ r, js_sort cmp l = Ret r ∧ r ≡ₚ l ∧ StronglySorted R r.
Proof.
  induction 1 as [|x l Hx Hl IH]; cbn [js_sort].
  - eexists. split_and!; [done..|]. constructor.
  - destruct IH as (s & -> & Hperm & Hs). cbn [mbind Exc_bind].
    destruct (sort_insert_ordered x s) as (r & -> & Hperm' & Hr);
      [done|by rewrite Hperm|done|].
    eexists. split_and!; [done| |done]. by rewrite Hperm', Hperm.
Qed.
End SortOrder.

Section SortSame.
Variable cmp : Json → Json → Exc Z.
Variable P : Json → Prop.
Hypothesis cmp_zero : ∀ a b, P a → P b → cmp a b = Ret 0.

(** A comparison that always answers [0] moves nothing. *)
Lemma js_sort_unchanged l : Forall P l → js_sort cmp l = Ret l.
Proof.
  induction 1 as [|x l Hx Hl IH]; [done|]. cbn [js_sort]. rewrite IH.
  cbn [mbind Exc_bind]. destruct Hl as [|y l Hy Hl]; [done|].
  cbn [sort_insert]. by rewrite cmp_zero.
Qed.
End SortSame.

Section SortFields.
Context `{Locale}.

Lemma num_field_Some key a n :
  num_field key a = Some n → a ≠ JNull ∧ field (Some a) key = Some (JNum n).
Proof.
  unfold num_field. intros Hn. split; [by intros ->|].
  destruct (field (Some a) key) as [[]|]; by simplify_eq.
Qed.

Lemma ascending_compare_numbers key a b :
  is_Some (num_field key a) → is_Some (num_field key b) →
  ∃ c, array.ascending_compare key a b = Ret c
       ∧ (c ≤ 0 → num_of key a ≤ num_of key b)
       ∧ (0 < c → num_of key b ≤ num_of key a).
Proof.
  intros [x Hx] [y Hy]. unfold num_of. rewrite Hx, Hy.
  apply num_field_Some in Hx as [Ha Hx]. apply num_field_Some in Hy as [Hb Hy].
  unfold array.ascending_compare. rewrite !get_prop_not_null by done.
  rewrite Hx, Hy. simpl. eexists. split_and!; [done|lia..].
Qed.

Lemma descending_compare_numbers key a b :
  is_Some (num_field key a) → is_Some (num_field key b) →
  ∃ c, array.descending_compare key a b = Ret c
       ∧ (c ≤ 0 → num_of key b ≤ num_of key a)
       ∧ (0 < c → num_of key a ≤ num_of key b).
Proof.
  intros [x Hx] [y Hy]. unfold num_of. rewrite Hx, Hy.
  apply num_field_Some in Hx as [Ha Hx]. apply num_field_Some in Hy as [Hb Hy].
  unfold array.descending_compare. rewrite !get_prop_not_null by done.
  rewrite Hx, Hy. simpl. eexists. split_and!; [done|lia..].
Qed.

(** X23: on an array whose elements all carry a number in the sort field,
    [ascendingOrder] returns a rearrangement of the array in which the
    numbers never decrease, and [descendingOrder] one in which they never
    increase. *)
Theorem X23_sort_by_number (l : list Json) (key : string) :
  Forall (λ a, is_Some (num_field key a)) l →
  ∃ asc desc,
    array._ascendingOrder (Some (JArr l)) key = Ret (JArr asc)
    ∧ array._descendingOrder (Some (JArr l)) key = Ret (JArr desc)
    ∧ asc ≡ₚ l ∧ desc ≡ₚ l
    ∧ StronglySorted (λ a b, num_of key a ≤ num_of key b) asc
    ∧ StronglySorted (λ a b, num_of key b ≤ num_of key a) desc.
Proof.
  intros Hl.
  destruct (js_sort_ordered (array.ascending_compare key)
              (λ a, is_Some (num_field key a))
              (λ a b, num_of key a ≤ num_of key b)) with (l := l)
    as (asc & Ha & Hpa & Hsa); [intros; lia|apply ascending_compare_numbers|done|].
  destruct (js_sort_ordered (array.descending_compare key)
              (λ a, is_Some (num_field key a))
              (λ a b, num_of key b ≤ num_of key a)) with (l := l)
    as (desc & Hd & Hpd & Hsd); [intros; lia|apply descending_compare_numbers|done|].
  exists asc, desc. unfold array._ascendingOrder, array._descendingOrder.
  cbn [truthy Array_isArray negb orb array.as_list]. rewrite Ha, Hd.
  by split_and!.
Qed.

Lemma compare_others key a b :
  other_field key a = true → other_field key b = true →
  array.ascending_compare key a b = Ret 0
  ∧ array.descending_compare key a b = Ret 0.
Proof.
  unfold other_field. intros Ha Hb.
  assert (a ≠ JNull) as Hna by (by intros ->).
  assert (b ≠ JNull) as Hnb by (by intros ->).
  unfold array.ascending_compare, array.descending_compare.
  rewrite !get_prop_not_null by done.
  destruct (field (Some a) key) as [[]|]; try done;
    destruct (field (Some b) key) as [[]|]; done.
Qed.

(** X24: on an array whose elements all carry a boolean, an array or an
    object in the sort field, [ascendingOrder] and [descendingOrder] both
    return the array in its original order. *)
Theorem X24_sort_keeps_unordered_fields (l : list Json) (key : string) :
  Forall (λ a, other_field key a = true) l →
  array._ascendingOrder (Some (JArr l)) key = Ret (JArr l)
  ∧ array._descendingOrder (Some (JArr l)) key = Ret (JArr l).
Proof.
  intros Hl. unfold array._ascendingOrder, array._descendingOrder.
  cbn [truthy Array_isArray negb orb array.as_list].
  rewrite (js_sort_unchanged (array.ascending_compare key)
             (λ a, other_field key a = true));
    [|intros a b Ha Hb; apply (compare_others key a b Ha Hb)|done].
  rewrite (js_sort_unchanged (array.descending_compare key)
             (λ a, other_field key a = true));
    [|intros a b Ha Hb; apply (compare_others key a b Ha Hb)|done].
  done.
Qed.
End SortFields.

Lemma X23_sort_by_number_witness :
  ∃ asc desc,
    @array._ascendingOrder c_locale
      (Some (JArr [JObj [("v"%string, JNum 3)]; JObj [("v"%string, JNum 1)];
                   JObj [("v"%string, JNum 2)]])) "v" = Ret (JArr asc)
    ∧ @array._descendingOrder c_locale
        (Some (JArr [JObj [("v"%string, JNum 3)]; JObj [("v"%string, JNum 1)];
                     JObj [("v"%string, JNum 2)]])) "v" = Ret (JArr desc)
    ∧ StronglySorted (λ a b, num_of "v" a ≤ num_of "v" b) asc
    ∧ StronglySorted (λ a b, num_of "v" b ≤ num_of "v" a) desc.
Proof.
  destruct (@X23_sort_by_number c_locale
              [JObj [("v"%string, JNum 3)]; JObj [("v"%string, JNum 1)];
               JObj [("v"%string, JNum 2)]] "v")
    as (asc & desc & Ha & Hd & _ & _ & Hsa & Hsd).
  - repeat constructor; by eexists.
  - exists asc, desc. split_and!; assumption.
Defined.

Lemma X24_sort_keeps_unordered_fields_witness :
  @array._ascendingOrder c_locale
    (Some (JArr [JObj [("v"%string, JBool true)];
                 JObj [("v"%string, JBool false)]])) "v"
  = Ret (JArr [JObj [("v"%string, JBool true)];
               JObj [("v"%string, JBool false)]]).
Proof.
  apply (@X24_sort_keeps_unordered_fields c_locale
           [JObj [("v"%string, JBool true)]; JObj [("v"%string, JBool false)]]
           "v").
  repeat constructor.
Defined.
